(** * A Wordle-playing bot: shallow embedding of [wordle.py] and its
    specification properties.

    The class [Wordle] keeps its whole game in the fields of [self]; here
    the object is a record and every method is a computation in a small
    state-and-exception monad over that record.  The scored lexicon is a
    Python [dict] shared by reference between [self.freq] and
    [self.filtered], so dictionaries of that kind live in an object store
    and the two fields hold references into it. *)

From Stdlib Require Import Ascii String List Bool Arith Lia QArith Lqa.
Import ListNotations.

Local Open Scope nat_scope.
Local Open Scope list_scope.

(** ** Data *)

(** A word is a Python [str], used only through [len], indexing, [in] and
    [==]: a list of characters. *)
Definition word := list ascii.

(** [self.freq] and [self.filtered]: insertion-ordered mappings from a word
    to its zipf score.  The order is observable ([np.random.choice] is fed
    [list(probs.keys())]), hence an association list.  Scores are floats in
    the source; only their sum, a zero test and a quotient are taken, and
    they are rationals here. *)
Definition dict := list (word * Q).

Definition keys (d : dict) : list word := map fst d.
Definition values (d : dict) : list Q := map snd d.

(** The three board symbols ([self.green_square] and its siblings). *)
Inductive square : Type :=
  | green_square
  | yellow_square
  | gray_square.

(** The exceptions the methods can end in.  [VersionError],
    [WordLengthError] and [InvalidWordError] are the module's own classes;
    the others are raised by the interpreter ([IndexError],
    [ZeroDivisionError]) or by [np.random.choice] ([ValueError]). *)
Inductive exn : Type :=
  | VersionError
  | WordLengthError
  | InvalidWordError
  | IndexError
  | ZeroDivisionError
  | ValueError.

(** *** The store of lexicon dictionaries *)

Definition ref := nat.
Definition heap := list dict.

Definition deref (h : heap) (r : ref) : dict := nth r h [].

(** A dict display or comprehension creates a new object. *)
Definition alloc (h : heap) (d : dict) : heap * ref := (h ++ [d], length h).

(** *** The object *)

Record Wordle : Type := mkWordle {
  answer : word;
  store : heap;
  freq : ref;
  played : bool;
  solved : bool;
  filtered : ref;
  not_in : list ascii;
  contains : list (nat * list ascii);
  equals : list (nat * ascii);
  guesses : list word;
  board : list (list square)
}.

Definition set_store (h : heap) (s : Wordle) : Wordle :=
  mkWordle (answer s) h (freq s) (played s) (solved s) (filtered s)
           (not_in s) (contains s) (equals s) (guesses s) (board s).
Definition set_played (b : bool) (s : Wordle) : Wordle :=
  mkWordle (answer s) (store s) (freq s) b (solved s) (filtered s)
           (not_in s) (contains s) (equals s) (guesses s) (board s).
Definition set_solved (b : bool) (s : Wordle) : Wordle :=
  mkWordle (answer s) (store s) (freq s) (played s) b (filtered s)
           (not_in s) (contains s) (equals s) (guesses s) (board s).
Definition set_filtered (r : ref) (s : Wordle) : Wordle :=
  mkWordle (answer s) (store s) (freq s) (played s) (solved s) r
           (not_in s) (contains s) (equals s) (guesses s) (board s).
Definition set_not_in (l : list ascii) (s : Wordle) : Wordle :=
  mkWordle (answer s) (store s) (freq s) (played s) (solved s) (filtered s)
           l (contains s) (equals s) (guesses s) (board s).
Definition set_contains (c : list (nat * list ascii)) (s : Wordle) : Wordle :=
  mkWordle (answer s) (store s) (freq s) (played s) (solved s) (filtered s)
           (not_in s) c (equals s) (guesses s) (board s).
Definition set_equals (e : list (nat * ascii)) (s : Wordle) : Wordle :=
  mkWordle (answer s) (store s) (freq s) (played s) (solved s) (filtered s)
           (not_in s) (contains s) e (guesses s) (board s).
Definition set_guesses (g : list word) (s : Wordle) : Wordle :=
  mkWordle (answer s) (store s) (freq s) (played s) (solved s) (filtered s)
           (not_in s) (contains s) (equals s) g (board s).
Definition set_board (b : list (list square)) (s : Wordle) : Wordle :=
  mkWordle (answer s) (store s) (freq s) (played s) (solved s) (filtered s)
           (not_in s) (contains s) (equals s) (guesses s) b.

(** The dictionary [self.freq] refers to, and the one [self.filtered]
    refers to. *)
Definition lexicon (s : Wordle) : dict := deref (store s) (freq s).
Definition candidates (s : Wordle) : dict := deref (store s) (filtered s).

(** ** Partial expressions and stateful methods *)

(** The value of an expression that may raise. *)
Inductive res (A : Type) : Type :=
  | Val (a : A)
  | Exn (e : exn).
Arguments Val {A} a.
Arguments Exn {A} e.

Definition rbind {A B : Type} (r : res A) (k : A -> res B) : res B :=
  match r with
  | Val a => k a
  | Exn e => Exn e
  end.

(** What a method call leaves behind: a result and the object, or an
    exception and the object as it was when the exception was raised
    (mutations made before the raise stay). *)
Inductive outcome (A : Type) : Type :=
  | Ok (a : A) (s : Wordle)
  | Raise (e : exn) (s : Wordle).
Arguments Ok {A} a s.
Arguments Raise {A} e s.

Definition M (A : Type) : Type := Wordle -> outcome A.

Definition ret {A : Type} (a : A) : M A := fun s => Ok a s.

Definition bind {A B : Type} (m : M A) (k : A -> M B) : M B :=
  fun s => match m s with
           | Ok a s' => k a s'
           | Raise e s' => Raise e s'
           end.

Definition get : M Wordle := fun s => Ok s s.

Definition modify (f : Wordle -> Wordle) : M unit := fun s => Ok tt (f s).

Definition lift {A : Type} (r : res A) : M A :=
  fun s => match r with
           | Val a => Ok a s
           | Exn e => Raise e s
           end.

Declare Scope wordle_scope.
Delimit Scope wordle_scope with wordle.
Notation "x <- m ;; k" := (bind m (fun x => k))
  (at level 61, m at next level, right associativity) : wordle_scope.
Notation "m ;; k" := (bind m (fun _ => k))
  (at level 61, right associativity) : wordle_scope.
Local Open Scope wordle_scope.

(** The state the outcome carries, whichever way the call ended. *)
Definition final {A : Type} (o : outcome A) : Wordle :=
  match o with
  | Ok _ s => s
  | Raise _ s => s
  end.

(** [for x in l: body], threading a local accumulator. *)
Fixpoint foldM {A B : Type} (f : B -> A -> M B) (l : list A) (b : B) : M B :=
  match l with
  | [] => ret b
  | x :: l' => b' <- f b x ;; foldM f l' b'
  end.

Fixpoint forM_ {A : Type} (l : list A) (f : A -> M unit) : M unit :=
  match l with
  | [] => ret tt
  | x :: l' => f x ;; forM_ l' f
  end.

(** ** Python primitives *)

(** [w[j]] for a non-negative [j]. *)
Definition index {A : Type} (w : list A) (j : nat) : res A :=
  match nth_error w j with
  | Some c => Val c
  | None => Exn IndexError
  end.

(** [c in w] for a one-character [c]. *)
Definition mem (c : ascii) (w : word) : bool := existsb (Ascii.eqb c) w.

(** [u == v] on strings. *)
Fixpoint eqb_word (u v : word) : bool :=
  match u, v with
  | [], [] => true
  | a :: u', b :: v' => Ascii.eqb a b && eqb_word u' v'
  | _, _ => false
  end.

(** [d[k]] and [d[k] = v] on the small position-indexed dictionaries
    [self.equals] and [self.contains]; an assignment to a key already
    present keeps its place in the iteration order. *)
Fixpoint dict_get {V : Type} (k : nat) (d : list (nat * V)) : option V :=
  match d with
  | [] => None
  | (k', v) :: d' => if k' =? k then Some v else dict_get k d'
  end.

Fixpoint dict_set {V : Type} (k : nat) (v : V) (d : list (nat * V))
  : list (nat * V) :=
  match d with
  | [] => [(k, v)]
  | (k', v') :: d' =>
      if k' =? k then (k, v) :: d' else (k', v') :: dict_set k v d'
  end.

(** [x / y] on floats. *)
Definition pydiv (x y : Q) : res Q :=
  if Qeq_bool y 0 then Exn ZeroDivisionError else Val (x / y)%Q.

(** [sum(xs)]: a left fold from [0]. *)
Definition sum (xs : list Q) : Q := fold_left Qplus xs 0%Q.

(** [{word: f(d[word]) for word in d}] with an [f] that may raise. *)
Fixpoint dict_map (f : Q -> res Q) (d : dict) : res dict :=
  match d with
  | [] => Val []
  | (w, v) :: d' =>
      rbind (f v) (fun q =>
      rbind (dict_map f d') (fun r => Val ((w, q) :: r)))
  end.

(** [{word: d[word] for word in d if p(word)}]: the keys of a dict are
    distinct, so [d[word]] is the value met together with [word]. *)
Fixpoint dict_comp (p : word -> res bool) (d : dict) : res dict :=
  match d with
  | [] => Val []
  | (w, v) :: d' =>
      rbind (p w) (fun b =>
      rbind (dict_comp p d') (fun r => Val (if b then (w, v) :: r else r)))
  end.

(** [np.random.choice(a, p=p)], one draw.  The generator is outside the
    program: the draw is the number [r], and the element returned is taken
    among those of positive probability, which are the ones the sampler
    can return.  An empty [a] and a negative probability are rejected with
    [ValueError], and so is a [p] with no positive entry (it cannot sum to
    one). *)
Definition positive (q : Q) : bool := negb (Qle_bool q 0).
Definition negative (q : Q) : bool := negb (Qle_bool 0 q).

Definition support (a : list word) (p : list Q) : list word :=
  map fst (filter (fun wq => positive (snd wq)) (combine a p)).

Definition np_random_choice (r : nat) (a : list word) (p : list Q) : res word :=
  match a with
  | [] => Exn ValueError
  | _ :: _ =>
      if existsb negative p then Exn ValueError
      else
        let sup := support a p in
        match nth_error sup (r mod length sup) with
        | Some w => Val w
        | None => Exn ValueError
        end
  end.

(** ** The methods of [Wordle] *)

(** [__init__].  The version is tested first and selects the two word
    files; [d] is the dictionary bound to [self.freq] once the word file
    of that version is read and every word scored (its keys are
    [self.words]), and [ans] the answer, given or drawn.  Reading the
    files, [str.lower] and the scoring are outside the model. *)
Definition init (version : string) (ans : word) (d : dict) : res Wordle :=
  if negb (String.eqb version "new" || String.eqb version "old")
  then Exn VersionError
  else if negb (length ans =? 5) then Exn WordLengthError
  else if negb (existsb (eqb_word ans) (keys d)) then Exn InvalidWordError
  else Val {| answer := ans;
              store := [d];
              freq := 0;
              played := false;
              solved := false;
              filtered := 0;
              not_in := [];
              contains := [];
              equals := [];
              guesses := [];
              board := [] |}.

Definition reset_game : M unit :=
  modify (fun s =>
    {| answer := answer s;
       store := store s;
       freq := freq s;
       played := false;
       solved := false;
       filtered := freq s;
       not_in := [];
       contains := [];
       equals := [];
       guesses := [];
       board := [] |}).

Definition return_total_moves : M nat :=
  s <- get ;;
  if negb (solved s) && (length (guesses s) =? 6)
  then ret 7
  else ret (length (guesses s)).

Definition make_guess (r : nat) : M word :=
  s <- get ;;
  let tot := sum (values (candidates s)) in
  probs <- lift (dict_map (fun v => pydiv v tot) (candidates s)) ;;
  guess <- lift (np_random_choice r (keys probs) (values probs)) ;;
  modify (fun s => set_guesses (guesses s ++ [guess]) s) ;;
  ret guess.

(** [self.contains[j] = [g]] or [self.contains[j].append(g)]. *)
Definition add_contains (j : nat) (g : ascii) (c : list (nat * list ascii))
  : list (nat * list ascii) :=
  match dict_get j c with
  | None => dict_set j [g] c
  | Some l => dict_set j (l ++ [g]) c
  end.

(** One turn of the loop of [check_word]; [bd] is the local list. *)
Definition check_letter (guess : word) (bd : list square) (j : nat)
  : M (list square) :=
  s <- get ;;
  t_let <- lift (index (answer s) j) ;;
  g_let <- lift (index guess j) ;;
  if Ascii.eqb g_let t_let then
    modify (fun s => set_equals (dict_set j g_let (equals s)) s) ;;
    ret (bd ++ [green_square])
  else if mem g_let (answer s) then
    modify (fun s => set_contains (add_contains j g_let (contains s)) s) ;;
    ret (bd ++ [yellow_square])
  else
    modify (fun s => set_not_in (not_in s ++ [g_let]) s) ;;
    ret (bd ++ [gray_square]).

Definition check_word (guess : word) : M unit :=
  s <- get ;;
  if solved s then ret tt
  else
    bd <- foldM (check_letter guess) (seq 0 (length (answer s))) [] ;;
    modify (fun s => set_board (board s ++ [bd]) s).

Definition is_solved (guess : word) : M bool :=
  s <- get ;;
  ret (eqb_word guess (answer s)).

(** [self.filtered = {word: self.filtered[word] for word in self.filtered
    if p(word)}]: a new dictionary, to which [self.filtered] is rebound. *)
Definition refilter (p : word -> res bool) : M unit :=
  s <- get ;;
  d <- lift (dict_comp p (candidates s)) ;;
  modify (fun s => let (h, r) := alloc (store s) d in
                   set_filtered r (set_store h s)).

Definition keep_equal (k : nat) (c : ascii) (w : word) : res bool :=
  rbind (index w k) (fun x => Val (Ascii.eqb x c)).

Definition keep_misplaced (k : nat) (c : ascii) (w : word) : res bool :=
  if mem c w
  then rbind (index w k) (fun x => Val (negb (Ascii.eqb x c)))
  else Val false.

Definition keep_without (c : ascii) (w : word) : res bool :=
  Val (negb (mem c w)).

Definition filter_possible : M unit :=
  s <- get ;;
  forM_ (equals s) (fun kc => refilter (keep_equal (fst kc) (snd kc))) ;;
  forM_ (contains s) (fun kl =>
    forM_ (snd kl) (fun c => refilter (keep_misplaced (fst kl) c))) ;;
  forM_ (not_in s) (fun c => refilter (keep_without c)).

(** [print_state]: the printed text is not kept; what remains of the loop
    is the indexing of both histories. *)
Definition print_state : M unit :=
  s <- get ;;
  forM_ (seq 0 (length (board s))) (fun i =>
    lift (rbind (index (board s) i) (fun _ =>
          rbind (index (guesses s) i) (fun _ => Val tt)))).

(** The loop of [play] from turn [i] with [n] turns left; [rs i] is the
    draw of turn [i]. *)
Fixpoint play_rounds (rs : nat -> nat) (i n : nat) : M unit :=
  match n with
  | 0 => ret tt
  | S n' =>
      guess <- make_guess (rs i) ;;
      check_word guess ;;
      filter_possible ;;
      b <- is_solved guess ;;
      if b then modify (set_solved true)
      else play_rounds rs (S i) n'
  end.

Definition play (rs : nat -> nat) : M bool :=
  s <- get ;;
  (if played s then reset_game else ret tt) ;;
  play_rounds rs 0 6 ;;
  print_state ;;
  modify (set_played true) ;;
  s <- get ;;
  ret (solved s).

(** ** Notions the statements are written with *)

(** The symbol the evaluator gives a guessed letter [g] met where the
    answer has [t]. *)
Definition mark (ans : word) (g t : ascii) : square :=
  if Ascii.eqb g t then green_square
  else if mem g ans then yellow_square
  else gray_square.

(** The fields of [s] after one turn of the loop of [check_word]. *)
Definition absorb (j : nat) (g t : ascii) (s : Wordle) : Wordle :=
  if Ascii.eqb g t then set_equals (dict_set j g (equals s)) s
  else if mem g (answer s) then
    set_contains (add_contains j g (contains s)) s
  else set_not_in (not_in s ++ [g]) s.

Definition letter (w : word) (j : nat) : ascii := nth j w zero.

Fixpoint absorb_all (guess : word) (js : list nat) (s : Wordle) : Wordle :=
  match js with
  | [] => s
  | j :: js' =>
      absorb_all guess js' (absorb j (letter guess j) (letter (answer s) j) s)
  end.

(** The letters recorded as misplaced at position [k]. *)
Definition letters_at (k : nat) (c : list (nat * list ascii)) : list ascii :=
  match dict_get k c with
  | Some l => l
  | None => []
  end.

(** The session as [__init__] and [reset_game] leave it. *)
Definition fresh (s : Wordle) : Prop :=
  played s = false /\ solved s = false /\ filtered s = freq s /\
  not_in s = [] /\ contains s = [] /\ equals s = [] /\
  guesses s = [] /\ board s = [].

(** A session on which [play] starts a game: one just built or reset, or
    one whose previous game was played to its end. *)
Definition ready (s : Wordle) : Prop := played s = true \/ fresh s.

(** The lexicon of the data model: every word has the length of the
    answer, every score is positive, and the answer is one of the words. *)
Definition well_formed (s : Wordle) : Prop :=
  (forall w v, In (w, v) (lexicon s) ->
               length w = length (answer s) /\ (0 < v)%Q) /\
  In (answer s) (keys (lexicon s)).

(** The constraints say nothing false about the answer. *)
Definition consistent (s : Wordle) : Prop :=
  (forall k c, In (k, c) (equals s) -> nth_error (answer s) k = Some c) /\
  (forall k l c, In (k, l) (contains s) -> In c l ->
     mem c (answer s) = true /\
     exists t, nth_error (answer s) k = Some t /\ t <> c) /\
  (forall c, In c (not_in s) -> mem c (answer s) = false).

(** The first three statements of a turn of [play]. *)
Definition round (r : nat) : M word :=
  guess <- make_guess r ;;
  check_word guess ;;
  filter_possible ;;
  ret guess.

(** What remains of [play] once the session is known to be fresh. *)
Definition play_fresh (rs : nat -> nat) : M bool :=
  play_rounds rs 0 6 ;;
  print_state ;;
  modify (set_played true) ;;
  s <- get ;;
  ret (solved s).

(** A caller's use of the object: any method, any number of times, going
    on after an exception with the object as the exception left it. *)
Inductive call : Type :=
  | Play (rs : nat -> nat)
  | ResetGame
  | ReturnTotalMoves
  | MakeGuess (r : nat)
  | CheckWord (guess : word)
  | IsSolved (guess : word)
  | FilterPossible
  | PrintState.

Definition run_call (c : call) (s : Wordle) : Wordle :=
  match c with
  | Play rs => final (play rs s)
  | ResetGame => final (reset_game s)
  | ReturnTotalMoves => final (return_total_moves s)
  | MakeGuess r => final (make_guess r s)
  | CheckWord guess => final (check_word guess s)
  | IsSolved guess => final (is_solved guess s)
  | FilterPossible => final (filter_possible s)
  | PrintState => final (print_state s)
  end.

Definition run_calls (cs : list call) (s : Wordle) : Wordle :=
  fold_left (fun s c => run_call c s) cs s.

(** The board line [check_word] builds for [guess]. *)
Definition marks (ans guess : word) (js : list nat) : list square :=
  map (fun j => mark ans (letter guess j) (letter ans j)) js.

(** The letters of [guess] at the positions [js] that the answer does not
    contain, in order. *)
Definition absent_letters (ans guess : word) (js : list nat) : list ascii :=
  flat_map (fun j =>
    match mark ans (letter guess j) (letter ans j) with
    | gray_square => [letter guess j]
    | _ => []
    end) js.

(** A method leaves every state [R]-related to the one it started in,
    whether it returns or raises. *)
Definition frame {A : Type} (R : Wordle -> Wordle -> Prop) (m : M A) : Prop :=
  forall s, R s (final (m s)).

(** The store only grows: the dictionaries already in it, the reference
    [self.freq] and the answer are as before. *)
Definition grows (s s' : Wordle) : Prop :=
  answer s' = answer s /\ freq s' = freq s /\
  exists ext, store s' = store s ++ ext.

(** A game under way: not solved, every recorded constraint true of the
    answer, the answer still a candidate, the candidates as the data model
    wants them, and one board line per guess. *)
Definition in_progress (s : Wordle) : Prop :=
  solved s = false /\
  consistent s /\
  In (answer s) (keys (candidates s)) /\
  (forall w v, In (w, v) (candidates s) ->
               length w = length (answer s) /\ (0 < v)%Q) /\
  length (board s) = length (guesses s).

(** What [filter_possible] may change: only the store, by allocation, and
    the binding of [self.filtered], to a dictionary with no new entry. *)
Definition narrows (s s' : Wordle) : Prop :=
  grows s s' /\
  played s' = played s /\ solved s' = solved s /\
  not_in s' = not_in s /\ contains s' = contains s /\
  equals s' = equals s /\
  guesses s' = guesses s /\ board s' = board s /\
  incl (candidates s') (candidates s) /\
  length (candidates s') <= length (candidates s).

(** The invariant of the three loops of [filter_possible] started in
    [s0]. *)
Definition kept (s0 s : Wordle) : Prop :=
  narrows s0 s /\ In (answer s0) (keys (candidates s)).

(** The lexicon invariants as a test, to check a concrete lexicon by
    evaluation. *)
Definition lexicon_okb (ans : word) (d : dict) : bool :=
  forallb (fun wv => (length (fst wv) =? length ans) && positive (snd wv)) d.

Definition well_formedb (s : Wordle) : bool :=
  lexicon_okb (answer s) (lexicon s) &&
  existsb (eqb_word (answer s)) (keys (lexicon s)).

(** ** Concrete sessions *)

Definition w (t : string) : word := list_ascii_of_string t.

Definition ight : dict :=
  [(w "light", 5%Q); (w "might", 5%Q); (w "night", 5%Q); (w "right", 5%Q);
   (w "sight", 4%Q); (w "tight", 4%Q); (w "fight", 4%Q)].

(** [Wordle(answer="fight")] over the lexicon [ight]. *)
Definition fight : Wordle :=
  {| answer := w "fight"; store := [ight]; freq := 0;
     played := false; solved := false; filtered := 0;
     not_in := []; contains := []; equals := [];
     guesses := []; board := [] |}.

(** A session whose candidate dictionary has been emptied. *)
Definition stuck : Wordle :=
  {| answer := w "fight"; store := [ight; []]; freq := 0;
     played := false; solved := false; filtered := 1;
     not_in := []; contains := []; equals := [];
     guesses := []; board := [] |}.

(** ** Notions for the further properties *)

(** What [check_word] leaves alone: everything but the three constraint
    containers and the board. *)
Definition untouched (s s' : Wordle) : Prop :=
  answer s' = answer s /\ store s' = store s /\ freq s' = freq s /\
  filtered s' = filtered s /\ played s' = played s /\
  solved s' = solved s /\ guesses s' = guesses s.

(** The test the three loops of [filter_possible] apply together to a
    word, for words long enough to be indexed at every recorded
    position. *)
Definition fits_equal (u : word) (kc : nat * ascii) : bool :=
  Ascii.eqb (letter u (fst kc)) (snd kc).

Definition fits_misplaced (u : word) (k : nat) (c : ascii) : bool :=
  mem c u && negb (Ascii.eqb (letter u k) c).

Definition accepts (s : Wordle) (u : word) : bool :=
  forallb (fits_equal u) (equals s) &&
  forallb (fun kl => forallb (fits_misplaced u (fst kl)) (snd kl))
          (contains s) &&
  forallb (fun c => negb (mem c u)) (not_in s).

(** Every candidate can be indexed at every position a constraint
    names (a position of [self.contains] with no letter recorded is never
    used as an index). *)
Definition long_enough (s : Wordle) : Prop :=
  forall u v, In (u, v) (candidates s) ->
    (forall k c, In (k, c) (equals s) -> k < length u) /\
    (forall k l, In (k, l) (contains s) -> l <> [] -> k < length u).

(** [s'] is [s] with the candidates narrowed to those passing [q]. *)
Definition refines (q : word -> bool) (s s' : Wordle) : Prop :=
  narrows s s' /\
  candidates s' = filter (fun wv => q (fst wv)) (candidates s).

(** A method keeps a property of the session, however it ends. *)
Definition preserves {A : Type} (I : Wordle -> Prop) (m : M A) : Prop :=
  forall s, I s -> I (final (m s)).

(** The session says nothing false: its constraints are true of the
    answer, the answer is a candidate, every candidate is an entry of the
    lexicon, and the lexicon has the answer. *)
Definition sound (s : Wordle) : Prop :=
  consistent s /\
  In (answer s) (keys (candidates s)) /\
  incl (candidates s) (lexicon s) /\
  In (answer s) (keys (lexicon s)) /\
  freq s < length (store s).

Definition keeps_sound (s s' : Wordle) : Prop :=
  grows s s' /\ (sound s -> sound s').

(** The lexicon [ight] with a score of zero for "fight". *)
Definition ight0 : dict :=
  [(w "light", 5%Q); (w "might", 5%Q); (w "night", 5%Q); (w "right", 5%Q);
   (w "sight", 4%Q); (w "tight", 4%Q); (w "fight", 0%Q)].

Definition fight0 : Wordle :=
  {| answer := w "fight"; store := [ight0]; freq := 0;
     played := false; solved := false; filtered := 0;
     not_in := []; contains := []; equals := [];
     guesses := []; board := [] |}.

(** A session whose only candidate left has score zero, and one with a
    single scored candidate. *)
Definition last_zero : Wordle :=
  {| answer := w "fight"; store := [ight0; [(w "fight", 0%Q)]]; freq := 0;
     played := false; solved := false; filtered := 1;
     not_in := []; contains := []; equals := [];
     guesses := []; board := [] |}.

Definition last_one : Wordle :=
  {| answer := w "fight"; store := [ight; [(w "fight", 4%Q)]]; freq := 0;
     played := false; solved := false; filtered := 1;
     not_in := []; contains := []; equals := [];
     guesses := []; board := [] |}.

(** A lexicon with a word too short for the answer's positions, and a
    session over it that has fixed the last letter. *)
Definition ragged : dict := [(w "fight", 4%Q); (w "fig", 3%Q)].

Definition ragged_fight : Wordle :=
  {| answer := w "fight"; store := [ragged]; freq := 0;
     played := false; solved := false; filtered := 0;
     not_in := []; contains := []; equals := [(4, "t"%char)];
     guesses := []; board := [] |}.

(** A lexicon of three words and a session over it. *)
Definition trio : dict :=
  [(w "light", 5%Q); (w "might", 5%Q); (w "fight", 4%Q)].

Definition fight3 : Wordle :=
  {| answer := w "fight"; store := [trio]; freq := 0;
     played := false; solved := false; filtered := 0;
     not_in := []; contains := []; equals := [];
     guesses := []; board := [] |}.

(** [long_enough] as a test. *)
Definition long_enoughb (s : Wordle) : bool :=
  forallb (fun wv : word * Q =>
    forallb (fun kc : nat * ascii => fst kc <? length (fst wv)) (equals s) &&
    forallb (fun kl : nat * list ascii => fst kl <? length (fst wv))
            (contains s))
    (candidates s).

(** The session [fight] once the guess "tight" has been evaluated. *)
Definition fight_tight : Wordle := final (check_word (w "tight") fight).

(** The session is left exactly as it was. *)
Definition same (s s' : Wordle) : Prop := s' = s.

(** The board line of a guess against an answer. *)
Definition evaluate (ans guess : word) : list square :=
  marks ans guess (seq 0 (length ans)).

(** The candidate dictionary of [s'] has no entry that the one of [s]
    lacks. *)
Definition shrinks (s s' : Wordle) : Prop :=
  incl (candidates s') (candidates s) /\
  length (candidates s') <= length (candidates s).

(** A lexicon with two scored words and a target the frequency table
    does not know. *)
Definition two_known : dict :=
  [(w "light", 5%Q); (w "might", 5%Q); (w "fight", 0%Q)].

Definition fight_unknown : Wordle :=
  {| answer := w "fight"; store := [two_known]; freq := 0;
     played := false; solved := false; filtered := 0;
     not_in := []; contains := []; equals := [];
     guesses := []; board := [] |}.

(** * Properties *)

(** ** The monad *)

Section Frames.
Variable R : Wordle -> Wordle -> Prop.
Hypothesis R_refl : forall s, R s s.
Hypothesis R_trans : forall s1 s2 s3, R s1 s2 -> R s2 s3 -> R s1 s3.

Lemma frame_ret {A : Type} (a : A) : frame R (ret a).
Proof. intro s. apply R_refl. Qed.

Lemma frame_get : frame R get.
Proof. intro s. apply R_refl. Qed.

Lemma frame_lift {A : Type} (r : res A) : frame R (lift r).
Proof. intro s. unfold lift. destruct r; apply R_refl. Qed.

Lemma frame_modify (f : Wordle -> Wordle) :
  (forall s, R s (f s)) -> frame R (modify f).
Proof. intros H s. apply H. Qed.

Lemma frame_bind {A B : Type} (m : M A) (k : A -> M B) :
  frame R m -> (forall a, frame R (k a)) -> frame R (bind m k).
Proof.
  intros Hm Hk s. unfold bind.
  specialize (Hm s). destruct (m s) as [a s1 | e s1]; simpl in *.
  - eapply R_trans; [exact Hm | apply Hk].
  - exact Hm.
Qed.

Lemma frame_foldM {A B : Type} (f : B -> A -> M B) (l : list A) :
  (forall b x, frame R (f b x)) -> forall b, frame R (foldM f l b).
Proof.
  intros Hf. induction l as [| x l IH]; intro b; simpl.
  - apply frame_ret.
  - apply frame_bind; [apply Hf | exact IH].
Qed.

Lemma frame_forM {A : Type} (l : list A) (f : A -> M unit) :
  (forall x, frame R (f x)) -> frame R (forM_ l f).
Proof.
  intros Hf. induction l as [| x l IH]; simpl.
  - apply frame_ret.
  - apply frame_bind; [apply Hf | intros _; exact IH].
Qed.
End Frames.

(** Walks through a method built from the monad's operations, leaving the
    obligations of its [modify] steps. *)
Ltac frame_walk Hrefl Htrans :=
  repeat match goal with
    | |- frame _ (if ?b then _ else _) => destruct b
    | |- frame _ (ret _) => apply (frame_ret _ Hrefl)
    | |- frame _ get => apply (frame_get _ Hrefl)
    | |- frame _ (lift _) => apply (frame_lift _ Hrefl)
    | |- frame _ (bind _ _) => apply (frame_bind _ Htrans); [| intro]
    | |- frame _ (forM_ _ _) => apply (frame_forM _ Hrefl Htrans); intro
    | |- frame _ (foldM _ _ _) => apply (frame_foldM _ Hrefl Htrans); intros
    | |- frame _ (modify _) => apply frame_modify; intro
    end.

(** ** The store *)

Lemma grows_refl s : grows s s.
Proof. repeat split. exists []. now rewrite app_nil_r. Qed.

Lemma grows_trans s1 s2 s3 : grows s1 s2 -> grows s2 s3 -> grows s1 s3.
Proof.
  intros (Ha & Hf & e1 & H1) (Ha' & Hf' & e2 & H2).
  repeat split; try congruence.
  exists (e1 ++ e2). rewrite H2, H1. now rewrite app_assoc.
Qed.

Lemma grows_same_store s s' :
  answer s' = answer s -> freq s' = freq s -> store s' = store s ->
  grows s s'.
Proof.
  intros Ha Hf Hs. repeat split; trivial. exists []. now rewrite app_nil_r.
Qed.

Lemma grows_lexicon s s' :
  grows s s' -> freq s < length (store s) -> lexicon s' = lexicon s.
Proof.
  intros (_ & Hf & ext & Hs) Hlt. unfold lexicon, deref.
  rewrite Hf, Hs. now apply app_nth1.
Qed.

Ltac grows_walk :=
  frame_walk grows_refl grows_trans;
  try (apply grows_same_store; reflexivity).

Lemma reset_game_grows : frame grows reset_game.
Proof. unfold reset_game. grows_walk. Qed.

Lemma return_total_moves_grows : frame grows return_total_moves.
Proof. unfold return_total_moves. grows_walk. Qed.

Lemma make_guess_grows r : frame grows (make_guess r).
Proof. unfold make_guess. grows_walk. Qed.

Lemma check_word_grows guess : frame grows (check_word guess).
Proof.
  unfold check_word. grows_walk. unfold check_letter. grows_walk.
Qed.

Lemma is_solved_grows guess : frame grows (is_solved guess).
Proof. unfold is_solved. grows_walk. Qed.

Lemma refilter_grows p : frame grows (refilter p).
Proof.
  unfold refilter. grows_walk.
  repeat split. now exists [a0].
Qed.

Lemma filter_possible_grows : frame grows filter_possible.
Proof.
  unfold filter_possible. grows_walk; apply refilter_grows.
Qed.

Lemma print_state_grows : frame grows print_state.
Proof. unfold print_state. grows_walk. Qed.

Lemma play_rounds_grows rs n : forall i, frame grows (play_rounds rs i n).
Proof.
  induction n as [| n IH]; intro i; simpl.
  - grows_walk.
  - frame_walk grows_refl grows_trans;
      try apply make_guess_grows; try apply check_word_grows;
      try apply filter_possible_grows; try apply is_solved_grows;
      try apply IH; try (apply grows_same_store; reflexivity).
Qed.

Lemma play_grows rs : frame grows (play rs).
Proof.
  unfold play.
  frame_walk grows_refl grows_trans;
    try apply reset_game_grows; try apply play_rounds_grows;
    try apply print_state_grows; try (apply grows_same_store; reflexivity).
Qed.

Lemma run_call_grows c s : grows s (run_call c s).
Proof.
  destruct c; unfold run_call.
  - apply play_grows.
  - apply reset_game_grows.
  - apply return_total_moves_grows.
  - apply make_guess_grows.
  - apply check_word_grows.
  - apply is_solved_grows.
  - apply filter_possible_grows.
  - apply print_state_grows.
Qed.

Lemma run_calls_grows cs : forall s, grows s (run_calls cs s).
Proof.
  induction cs as [| c cs IH]; intro s; simpl.
  - apply grows_refl.
  - eapply grows_trans; [apply run_call_grows | apply IH].
Qed.

Lemma init_inv version ans d s :
  init version ans d = Val s ->
  s = {| answer := ans; store := [d]; freq := 0;
         played := false; solved := false; filtered := 0;
         not_in := []; contains := []; equals := [];
         guesses := []; board := [] |} /\
  length ans = 5 /\ existsb (eqb_word ans) (keys d) = true.
Proof.
  unfold init. intro H.
  destruct (String.eqb version "new" || String.eqb version "old");
    simpl in H; [| discriminate].
  destruct (length ans =? 5) eqn:El; simpl in H; [| discriminate].
  destruct (existsb (eqb_word ans) (keys d)) eqn:Ei; simpl in H;
    [| discriminate].
  apply Nat.eqb_eq in El. injection H as <-. auto.
Qed.

(** ** Reset, repeated play and the shared lexicon *)

(** C8. Whatever the session went through before, [reset_game] returns and
    leaves [self.filtered] bound to the very dictionary [self.freq] is
    bound to, so the candidate set is the full scored lexicon; the three
    constraint containers and both histories are empty, the two flags are
    down, and the answer and the lexicon are untouched. *)
Theorem reset_game_restores (s : Wordle) :
  exists s',
    reset_game s = Ok tt s' /\
    filtered s' = freq s' /\
    candidates s' = lexicon s /\
    lexicon s' = lexicon s /\
    equals s' = [] /\ contains s' = [] /\ not_in s' = [] /\
    guesses s' = [] /\ board s' = [] /\
    played s' = false /\ solved s' = false /\
    answer s' = answer s.
Proof.
  eexists. split; [reflexivity |]. simpl. repeat split.
Qed.

Lemma play_played rs s :
  played s = true -> play rs s = play_fresh rs (final (reset_game s)).
Proof.
  intro Hp. unfold play, bind at 1 2, get. rewrite Hp. reflexivity.
Qed.

(** C10. When [self.played] is set, [play] begins with exactly the state
    [reset_game] produces: that state is fresh, has the same answer and
    the full lexicon as candidate set, and the rest of [play] (the rounds,
    in [play_fresh]) runs from it.  Hence nothing of the previous game but
    the answer and the lexicon influences the new one: two played sessions
    that agree on those behave alike. *)
Theorem play_again_resets (rs : nat -> nat) (s : Wordle) :
  played s = true ->
  exists s0,
    reset_game s = Ok tt s0 /\
    fresh s0 /\
    answer s0 = answer s /\
    candidates s0 = lexicon s /\
    play rs s = play_fresh rs s0 /\
    forall s', played s' = true ->
               answer s' = answer s -> store s' = store s ->
               freq s' = freq s ->
               play rs s' = play rs s.
Proof.
  intro Hp. eexists. split; [reflexivity |].
  split; [repeat split |]. split; [reflexivity |]. split; [reflexivity |].
  split.
  - now apply play_played.
  - intros s' Hp' Ha Hs Hf.
    rewrite (play_played rs s' Hp'), (play_played rs s Hp).
    simpl. now rewrite Ha, Hs, Hf.
Qed.

Lemma play_again_resets_witness :
  exists s0,
    reset_game (set_played true fight) = Ok tt s0 /\
    fresh s0 /\
    answer s0 = answer (set_played true fight) /\
    candidates s0 = lexicon (set_played true fight) /\
    play (fun _ => 0) (set_played true fight) = play_fresh (fun _ => 0) s0 /\
    forall s', played s' = true ->
               answer s' = answer (set_played true fight) ->
               store s' = store (set_played true fight) ->
               freq s' = freq (set_played true fight) ->
               play (fun _ => 0) s' = play (fun _ => 0) (set_played true fight).
Proof.
  apply (play_again_resets (fun _ => 0) (set_played true fight)).
  reflexivity.
Defined.

(** C9. From construction on, whatever methods are called, in whatever
    order and however they end, [self.freq] still refers to the same
    dictionary object and that object holds the pairs it was built with:
    the comprehensions of [filter_possible] create new dictionaries and
    rebind [self.filtered], they never write into the one it shares with
    [self.freq] after [__init__] or [reset_game]. *)
Theorem freq_never_mutated (version : string) (ans : word) (d : dict)
    (s0 : Wordle) (cs : list call) :
  init version ans d = Val s0 ->
  lexicon s0 = d /\
  freq (run_calls cs s0) = freq s0 /\
  lexicon (run_calls cs s0) = d.
Proof.
  intro Hi. apply init_inv in Hi. destruct Hi as (-> & _ & _).
  split; [reflexivity |].
  match goal with |- context [run_calls cs ?s] => set (s0 := s) end.
  pose proof (run_calls_grows cs s0) as Hg.
  split.
  - now destruct Hg as (_ & Hf & _).
  - rewrite (grows_lexicon _ _ Hg); [reflexivity | simpl; lia].
Qed.

Lemma freq_never_mutated_witness :
  let cs := [Play (fun _ => 0); MakeGuess 2; CheckWord (w "might");
             FilterPossible; ResetGame; Play (fun i => i)] in
  lexicon fight = ight /\
  freq (run_calls cs fight) = freq fight /\
  lexicon (run_calls cs fight) = ight.
Proof.
  intro cs. apply (freq_never_mutated "new" (w "fight") ight fight cs).
  reflexivity.
Defined.

(** ** The guess selector *)

(** C4. On an empty candidate dictionary [make_guess] raises: the sum is
    [0], the comprehension has nothing to divide, and [np.random.choice]
    rejects the empty list with its [ValueError] (the module defines no
    exception class of its own for this case).  No guess is recorded. *)
Theorem make_guess_empty (r : nat) (s : Wordle) :
  candidates s = [] ->
  make_guess r s = Raise ValueError s.
Proof.
  intro He. unfold make_guess, bind, get. rewrite He. reflexivity.
Qed.

Lemma make_guess_empty_witness :
  candidates stuck = [] /\ make_guess 0 stuck = Raise ValueError stuck.
Proof.
  split; [reflexivity | apply (make_guess_empty 0 stuck); reflexivity].
Defined.

(** ** Small dictionaries and words *)

Lemma dict_get_set_same {V : Type} k (v : V) d :
  dict_get k (dict_set k v d) = Some v.
Proof.
  induction d as [| [k' v'] d IH]; simpl.
  - now rewrite Nat.eqb_refl.
  - destruct (k' =? k) eqn:E; simpl.
    + now rewrite Nat.eqb_refl.
    + now rewrite E.
Qed.

Lemma dict_get_set_other {V : Type} k j (v : V) d :
  k <> j -> dict_get k (dict_set j v d) = dict_get k d.
Proof.
  intro Hne. induction d as [| [k' v'] d IH]; simpl.
  - destruct (j =? k) eqn:E; [apply Nat.eqb_eq in E; congruence | reflexivity].
  - destruct (k' =? j) eqn:E; simpl.
    + apply Nat.eqb_eq in E. subst k'.
      destruct (j =? k) eqn:E'; [apply Nat.eqb_eq in E'; congruence |].
      reflexivity.
    + destruct (k' =? k); [reflexivity | exact IH].
Qed.

Lemma dict_set_id {V : Type} k (v : V) d :
  dict_get k d = Some v -> dict_set k v d = d.
Proof.
  induction d as [| [k' v'] d IH]; simpl; [discriminate |].
  destruct (k' =? k) eqn:E.
  - apply Nat.eqb_eq in E. intros [= ->]. now subst.
  - intro H. now rewrite IH.
Qed.

Lemma dict_get_In {V : Type} k (v : V) d :
  dict_get k d = Some v -> In (k, v) d.
Proof.
  induction d as [| [k' v'] d IH]; simpl; [discriminate |].
  destruct (k' =? k) eqn:E.
  - apply Nat.eqb_eq in E. intros [= ->]. left. now subst.
  - intro H. right. now apply IH.
Qed.

Lemma In_dict_set {V : Type} k (v : V) d k' v' :
  In (k', v') (dict_set k v d) -> (k', v') = (k, v) \/ In (k', v') d.
Proof.
  induction d as [| [k0 v0] d IH]; simpl.
  - intros [H | []]. left. now symmetry.
  - destruct (k0 =? k); simpl.
    + intros [H | H]; [left; now symmetry | right; now right].
    + intros [H | H]; [right; now left |].
      destruct (IH H) as [E | E]; [now left | right; now right].
Qed.

Lemma mem_In c u : mem c u = true <-> In c u.
Proof.
  unfold mem. rewrite existsb_exists. split.
  - intros (x & Hx & E). apply Ascii.eqb_eq in E. now subst.
  - intro H. exists c. split; [exact H | apply Ascii.eqb_refl].
Qed.

Lemma mem_not_In c u : mem c u = false <-> ~ In c u.
Proof.
  rewrite <- mem_In. destruct (mem c u); split; congruence.
Qed.

Lemma eqb_word_eq u : forall v, eqb_word u v = true <-> u = v.
Proof.
  induction u as [| a u IH]; intros [| b v]; simpl; split;
    try congruence; try reflexivity.
  - rewrite andb_true_iff, Ascii.eqb_eq, IH. intros [-> ->]. reflexivity.
  - intros [= -> ->]. rewrite Ascii.eqb_refl. simpl. now apply IH.
Qed.

Lemma eqb_word_refl u : eqb_word u u = true.
Proof. now apply eqb_word_eq. Qed.

Lemma In_keys_exists u : forall d : dict,
  existsb (eqb_word u) (keys d) = true <-> In u (keys d).
Proof.
  intro d. rewrite existsb_exists. split.
  - intros (x & Hx & E). apply eqb_word_eq in E. now subst.
  - intro H. exists u. split; [exact H | apply eqb_word_refl].
Qed.

Lemma letter_nth_error u j c : nth_error u j = Some c -> letter u j = c.
Proof. intro H. unfold letter. now apply nth_error_nth. Qed.

Lemma nth_error_letter u j : j < length u -> nth_error u j = Some (letter u j).
Proof. intro H. unfold letter. now apply nth_error_nth'. Qed.

Lemma index_letter u j : j < length u -> index u j = Val (letter u j).
Proof. intro H. unfold index. now rewrite nth_error_letter. Qed.

Lemma index_out {A : Type} (u : list A) j :
  length u <= j -> index u j = Exn IndexError.
Proof.
  intro H. unfold index.
  now replace (nth_error u j) with (@None A) by
    (symmetry; now apply nth_error_None).
Qed.

(** ** The evaluator *)

Lemma absorb_fields j g t s :
  answer (absorb j g t s) = answer s /\
  store (absorb j g t s) = store s /\
  freq (absorb j g t s) = freq s /\
  played (absorb j g t s) = played s /\
  solved (absorb j g t s) = solved s /\
  filtered (absorb j g t s) = filtered s /\
  guesses (absorb j g t s) = guesses s /\
  board (absorb j g t s) = board s.
Proof.
  unfold absorb. destruct (Ascii.eqb g t); [| destruct (mem g (answer s))];
    simpl; repeat split.
Qed.

Lemma absorb_all_fields guess js : forall s,
  answer (absorb_all guess js s) = answer s /\
  store (absorb_all guess js s) = store s /\
  freq (absorb_all guess js s) = freq s /\
  played (absorb_all guess js s) = played s /\
  solved (absorb_all guess js s) = solved s /\
  filtered (absorb_all guess js s) = filtered s /\
  guesses (absorb_all guess js s) = guesses s /\
  board (absorb_all guess js s) = board s.
Proof.
  induction js as [| j js IH]; intro s; simpl.
  - repeat split.
  - specialize (IH (absorb j (letter guess j) (letter (answer s) j) s)).
    pose proof (absorb_fields j (letter guess j) (letter (answer s) j) s) as F.
    destruct IH as (I1 & I2 & I3 & I4 & I5 & I6 & I7 & I8).
    destruct F as (F1 & F2 & F3 & F4 & F5 & F6 & F7 & F8).
    repeat split; congruence.
Qed.

Lemma absorb_all_answer guess js s :
  answer (absorb_all guess js s) = answer s.
Proof. apply absorb_all_fields. Qed.

Lemma check_letter_ok guess bd j s :
  j < length (answer s) -> j < length guess ->
  check_letter guess bd j s =
  Ok (bd ++ [mark (answer s) (letter guess j) (letter (answer s) j)])
     (absorb j (letter guess j) (letter (answer s) j) s).
Proof.
  intros Ha Hg. unfold check_letter, bind at 1 2 3, get.
  rewrite (index_letter _ _ Ha), (index_letter _ _ Hg). simpl.
  unfold mark, absorb.
  destruct (Ascii.eqb (letter guess j) (letter (answer s) j));
    [reflexivity |].
  destruct (mem (letter guess j) (answer s)); reflexivity.
Qed.

Lemma check_letter_short guess bd j s :
  j < length (answer s) -> length guess <= j ->
  check_letter guess bd j s = Raise IndexError s.
Proof.
  intros Ha Hg. unfold check_letter, bind at 1 2 3, get.
  rewrite (index_letter _ _ Ha), (index_out _ _ Hg). reflexivity.
Qed.

Lemma check_loop_ok guess js : forall bd s,
  (forall j, In j js -> j < length (answer s) /\ j < length guess) ->
  foldM (check_letter guess) js bd s =
  Ok (bd ++ marks (answer s) guess js) (absorb_all guess js s).
Proof.
  induction js as [| j js IH]; intros bd s Hjs; simpl.
  - unfold ret. now rewrite app_nil_r.
  - unfold bind. destruct (Hjs j (or_introl eq_refl)) as [Ha Hg].
    rewrite (check_letter_ok _ _ _ _ Ha Hg).
    rewrite IH.
    + destruct (absorb_fields j (letter guess j) (letter (answer s) j) s)
        as (-> & _).
      now rewrite <- app_assoc.
    + intros k Hk.
      destruct (absorb_fields j (letter guess j) (letter (answer s) j) s)
        as (-> & _).
      apply Hjs. now right.
Qed.

Lemma foldM_app {A B : Type} (f : B -> A -> M B) l1 l2 : forall b s,
  foldM f (l1 ++ l2) b s =
  match foldM f l1 b s with
  | Ok b' s' => foldM f l2 b' s'
  | Raise e s' => Raise e s'
  end.
Proof.
  induction l1 as [| x l1 IH]; intros b s; simpl.
  - reflexivity.
  - unfold bind. destruct (f b x s) as [b' s' | e s']; [apply IH | reflexivity].
Qed.

Lemma in_seq0 n j : In j (seq 0 n) <-> j < n.
Proof. rewrite in_seq. lia. Qed.

Lemma check_word_ok guess s :
  solved s = false -> length (answer s) <= length guess ->
  let s1 := absorb_all guess (seq 0 (length (answer s))) s in
  check_word guess s =
  Ok tt (set_board
           (board s1 ++ [marks (answer s) guess (seq 0 (length (answer s)))])
           s1).
Proof.
  intros Hs Hl s1. unfold check_word, bind at 1, get. rewrite Hs.
  unfold bind. rewrite check_loop_ok.
  - reflexivity.
  - intros j Hj. apply in_seq0 in Hj. lia.
Qed.

Lemma check_word_solved guess s :
  solved s = true -> check_word guess s = Ok tt s.
Proof.
  intro Hs. unfold check_word, bind, get. now rewrite Hs.
Qed.

Lemma check_word_short guess s :
  solved s = false -> length guess < length (answer s) ->
  check_word guess s =
  Raise IndexError (absorb_all guess (seq 0 (length guess)) s).
Proof.
  intros Hs Hl. unfold check_word, bind at 1, get. rewrite Hs.
  unfold bind.
  replace (length (answer s))
    with (length guess + S (length (answer s) - S (length guess))) by lia.
  rewrite seq_app, foldM_app, check_loop_ok.
  - simpl. unfold bind. rewrite check_letter_short; [reflexivity | |].
    + rewrite absorb_all_answer. lia.
    + lia.
  - intros j Hj. apply in_seq0 in Hj. lia.
Qed.

(** *** What one pass records *)

Lemma absorb_equals j g t s :
  equals (absorb j g t s) =
  match mark (answer s) g t with
  | green_square => dict_set j g (equals s)
  | _ => equals s
  end.
Proof.
  unfold absorb, mark.
  destruct (Ascii.eqb g t); [| destruct (mem g (answer s))]; reflexivity.
Qed.

Lemma absorb_contains j g t s :
  contains (absorb j g t s) =
  match mark (answer s) g t with
  | yellow_square => add_contains j g (contains s)
  | _ => contains s
  end.
Proof.
  unfold absorb, mark.
  destruct (Ascii.eqb g t); [| destruct (mem g (answer s))]; reflexivity.
Qed.

Lemma absorb_not_in j g t s :
  not_in (absorb j g t s) =
  match mark (answer s) g t with
  | gray_square => not_in s ++ [g]
  | _ => not_in s
  end.
Proof.
  unfold absorb, mark.
  destruct (Ascii.eqb g t); [| destruct (mem g (answer s))]; reflexivity.
Qed.

Lemma absorb_answer j g t s : answer (absorb j g t s) = answer s.
Proof. apply absorb_fields. Qed.

Lemma add_contains_same k g c :
  dict_get k (add_contains k g c) = Some (letters_at k c ++ [g]).
Proof.
  unfold add_contains, letters_at.
  destruct (dict_get k c); now rewrite dict_get_set_same.
Qed.

Lemma add_contains_other k j g c :
  k <> j -> dict_get k (add_contains j g c) = dict_get k c.
Proof.
  intro H. unfold add_contains.
  destruct (dict_get j c); now rewrite dict_get_set_other.
Qed.

Lemma In_add_contains j g c k l :
  In (k, l) (add_contains j g c) ->
  In (k, l) c \/ (k = j /\ l = letters_at j c ++ [g]).
Proof.
  unfold add_contains, letters_at. intro H.
  destruct (dict_get j c) as [l0 |];
    apply In_dict_set in H; destruct H as [[= -> ->] | H]; auto.
Qed.

Lemma equals_untouched guess js : forall s k,
  ~ In k js ->
  dict_get k (equals (absorb_all guess js s)) = dict_get k (equals s).
Proof.
  induction js as [| j js IH]; intros s k Hk; simpl; [reflexivity |].
  rewrite IH by (intro; apply Hk; now right).
  rewrite absorb_equals.
  destruct (mark _ _ _); try reflexivity.
  apply dict_get_set_other. intros ->. apply Hk. now left.
Qed.

Lemma equals_recorded guess js : forall s k,
  NoDup js -> In k js ->
  mark (answer s) (letter guess k) (letter (answer s) k) = green_square ->
  dict_get k (equals (absorb_all guess js s)) = Some (letter guess k).
Proof.
  induction js as [| j js IH]; intros s k Hnd Hk Hm; simpl; [destruct Hk |].
  inversion Hnd as [| ? ? Hj Hnd']; subst.
  destruct Hk as [-> | Hk].
  - rewrite equals_untouched by exact Hj.
    rewrite absorb_equals, Hm. apply dict_get_set_same.
  - apply IH; trivial. now rewrite absorb_answer.
Qed.

Lemma equals_stable guess js : forall s,
  (forall k, In k js ->
     mark (answer s) (letter guess k) (letter (answer s) k) = green_square ->
     dict_get k (equals s) = Some (letter guess k)) ->
  equals (absorb_all guess js s) = equals s.
Proof.
  induction js as [| j js IH]; intros s H; simpl; [reflexivity |].
  assert (E : equals (absorb j (letter guess j) (letter (answer s) j) s)
              = equals s).
  { rewrite absorb_equals.
    destruct (mark _ _ _) eqn:Em; try reflexivity.
    apply dict_set_id. apply H; [now left | exact Em]. }
  rewrite IH; [exact E |].
  intros k Hk. rewrite absorb_answer, E. intro Hm. apply H; [now right | exact Hm].
Qed.

Lemma contains_untouched guess js : forall s k,
  ~ In k js \/
  mark (answer s) (letter guess k) (letter (answer s) k) <> yellow_square ->
  dict_get k (contains (absorb_all guess js s)) = dict_get k (contains s).
Proof.
  induction js as [| j js IH]; intros s k Hk; simpl; [reflexivity |].
  rewrite IH.
  - rewrite absorb_contains.
    destruct (mark (answer s) (letter guess j) _) eqn:Em; try reflexivity.
    apply add_contains_other. intros ->.
    destruct Hk as [Hk | Hk]; [apply Hk; now left | now apply Hk].
  - rewrite absorb_answer.
    destruct Hk as [Hk | Hk]; [left; intro; apply Hk; now right | now right].
Qed.

Lemma contains_recorded guess js : forall s k,
  NoDup js -> In k js ->
  mark (answer s) (letter guess k) (letter (answer s) k) = yellow_square ->
  dict_get k (contains (absorb_all guess js s)) =
  Some (letters_at k (contains s) ++ [letter guess k]).
Proof.
  induction js as [| j js IH]; intros s k Hnd Hk Hm; simpl; [destruct Hk |].
  inversion Hnd as [| ? ? Hj Hnd']; subst.
  destruct Hk as [-> | Hk].
  - rewrite contains_untouched by (now left).
    rewrite absorb_contains, Hm. apply add_contains_same.
  - rewrite IH; trivial; [| now rewrite absorb_answer].
    unfold letters_at at 1. rewrite absorb_contains.
    destruct (mark (answer s) (letter guess j) _); try reflexivity.
    rewrite add_contains_other; [reflexivity |].
    intros ->. now apply Hj.
Qed.

Lemma not_in_recorded guess js : forall s,
  not_in (absorb_all guess js s) =
  not_in s ++ absent_letters (answer s) guess js.
Proof.
  induction js as [| j js IH]; intro s; simpl.
  - now rewrite app_nil_r.
  - rewrite IH, absorb_answer, absorb_not_in.
    destruct (mark _ _ _); simpl; try reflexivity.
    now rewrite <- app_assoc.
Qed.

Lemma In_absent_letters ans guess js k :
  In k js ->
  mark ans (letter guess k) (letter ans k) = gray_square ->
  In (letter guess k) (absent_letters ans guess js).
Proof.
  intros Hk Hm. unfold absent_letters. apply in_flat_map.
  exists k. split; [exact Hk |]. rewrite Hm. now left.
Qed.

Lemma marks_nth ans guess n i :
  i < n ->
  nth_error (marks ans guess (seq 0 n)) i =
  Some (mark ans (letter guess i) (letter ans i)).
Proof.
  intro Hi. unfold marks.
  rewrite nth_error_map, nth_error_nth' with (d := 0)
    by (rewrite length_seq; exact Hi).
  simpl. now rewrite seq_nth.
Qed.

(** *** Recorded constraints are true of the answer *)

Lemma absorb_consistent guess j s :
  j < length (answer s) ->
  consistent s ->
  consistent (absorb j (letter guess j) (letter (answer s) j) s).
Proof.
  intros Hj (He & Hc & Hn).
  set (g := letter guess j). set (t := letter (answer s) j).
  assert (Ht : nth_error (answer s) j = Some t)
    by now apply nth_error_letter.
  assert (Hold : forall c, In c (letters_at j (contains s)) ->
            mem c (answer s) = true /\
            exists t', nth_error (answer s) j = Some t' /\ t' <> c).
  { intros c Hin. unfold letters_at in Hin.
    destruct (dict_get j (contains s)) as [l0 |] eqn:Eg; [| destruct Hin].
    apply dict_get_In in Eg. exact (Hc _ _ _ Eg Hin). }
  unfold consistent.
  rewrite absorb_answer, absorb_equals, absorb_contains, absorb_not_in.
  unfold mark.
  destruct (Ascii.eqb g t) eqn:Egt; [| destruct (mem g (answer s)) eqn:Em].
  - apply Ascii.eqb_eq in Egt.
    split; [| split]; [| exact Hc | exact Hn].
    intros k c Hin. apply In_dict_set in Hin.
    destruct Hin as [[= -> ->] | Hin]; [congruence | now apply He].
  - split; [| split]; [exact He | | exact Hn].
    intros k l c Hin Hc'. apply In_add_contains in Hin.
    destruct Hin as [Hin | [-> ->]]; [exact (Hc _ _ _ Hin Hc') |].
    apply in_app_or in Hc'. destruct Hc' as [Hc' | [<- | []]].
    + now apply Hold.
    + split; [exact Em |]. exists t. split; [exact Ht |].
      intros ->. now rewrite Ascii.eqb_refl in Egt.
  - split; [| split]; [exact He | exact Hc |].
    intros c Hin. apply in_app_or in Hin.
    destruct Hin as [Hin | [<- | []]]; [now apply Hn | exact Em].
Qed.

Lemma absorb_all_consistent guess js : forall s,
  (forall j, In j js -> j < length (answer s)) ->
  consistent s ->
  consistent (absorb_all guess js s).
Proof.
  induction js as [| j js IH]; intros s Hjs Hc; simpl; [exact Hc |].
  apply IH.
  - intros k Hk. rewrite absorb_answer. apply Hjs. now right.
  - apply absorb_consistent; [apply Hjs; now left | exact Hc].
Qed.

Lemma absorb_all_ext g1 g2 js : forall s,
  (forall j, In j js -> letter g1 j = letter g2 j) ->
  absorb_all g1 js s = absorb_all g2 js s.
Proof.
  induction js as [| j js IH]; intros s H; simpl; [reflexivity |].
  rewrite (H j (or_introl eq_refl)). apply IH.
  intros k Hk. apply H. now right.
Qed.

Lemma marks_ext ans g1 g2 js :
  (forall j, In j js -> letter g1 j = letter g2 j) ->
  marks ans g1 js = marks ans g2 js.
Proof.
  intro H. unfold marks. apply map_ext_in. intros j Hj. now rewrite (H j Hj).
Qed.

Lemma mark_green ans g t : g = t -> mark ans g t = green_square.
Proof. intros ->. unfold mark. now rewrite Ascii.eqb_refl. Qed.

Lemma mark_yellow ans g t :
  g <> t -> In g ans -> mark ans g t = yellow_square.
Proof.
  intros Hne Hin. unfold mark.
  apply Ascii.eqb_neq in Hne. apply mem_In in Hin. now rewrite Hne, Hin.
Qed.

Lemma mark_gray ans g t :
  g <> t -> ~ In g ans -> mark ans g t = gray_square.
Proof.
  intros Hne Hin. unfold mark.
  apply Ascii.eqb_neq in Hne. apply mem_not_In in Hin. now rewrite Hne, Hin.
Qed.

(** C1. On a session not yet solved (the state in which [play] calls it)
    and a guess as long as the answer, [check_word] returns, appends one
    line of as many symbols as the answer has letters to the board, and at
    every position [i], with [g] the guessed letter and [t] the answer's:
    if [g = t] the symbol is green and [self.equals[i]] is [t]; otherwise,
    if [g] occurs in the answer, the symbol is yellow and [g] has been
    appended to the list [self.contains[i]]; otherwise the symbol is gray
    and [g] is in [self.not_in]. *)
Theorem check_word_feedback (s : Wordle) (guess : word) :
  solved s = false ->
  length guess = length (answer s) ->
  exists bd s',
    check_word guess s = Ok tt s' /\
    board s' = board s ++ [bd] /\
    length bd = length (answer s) /\
    forall i g t,
      nth_error guess i = Some g ->
      nth_error (answer s) i = Some t ->
      (g = t ->
         nth_error bd i = Some green_square /\
         dict_get i (equals s') = Some t) /\
      (g <> t -> In g (answer s) ->
         nth_error bd i = Some yellow_square /\
         dict_get i (contains s') =
           Some (letters_at i (contains s) ++ [g])) /\
      (g <> t -> ~ In g (answer s) ->
         nth_error bd i = Some gray_square /\
         In g (not_in s')).
Proof.
  intros Hs Hl.
  set (n := length (answer s)).
  exists (marks (answer s) guess (seq 0 n)).
  eexists. split; [apply check_word_ok; [exact Hs | lia] |].
  cbn [board set_board equals contains not_in].
  destruct (absorb_all_fields guess (seq 0 n) s)
    as (_ & _ & _ & _ & _ & _ & _ & Hb).
  fold n. rewrite Hb. split; [reflexivity |].
  split; [unfold marks; now rewrite length_map, length_seq |].
  intros i g t Hg Ht.
  assert (Hi : i < n) by (apply nth_error_Some; congruence).
  apply letter_nth_error in Hg, Ht.
  rewrite marks_nth by exact Hi. rewrite Hg, Ht.
  assert (Hin : In i (seq 0 n)) by now apply in_seq0.
  pose proof (seq_NoDup n 0) as Hnd.
  repeat split.
  - now rewrite mark_green.
  - rewrite (equals_recorded guess (seq 0 n) s i Hnd Hin); [congruence |].
    rewrite Hg, Ht. now apply mark_green.
  - now rewrite mark_yellow.
  - rewrite (contains_recorded guess (seq 0 n) s i Hnd Hin); [congruence |].
    rewrite Hg, Ht. now apply mark_yellow.
  - now rewrite mark_gray.
  - rewrite not_in_recorded. apply in_or_app. right.
    rewrite <- Hg. apply In_absent_letters; [exact Hin |].
    rewrite Hg, Ht. now apply mark_gray.
Qed.

Lemma check_word_feedback_witness :
  exists bd s',
    check_word (w "tight") fight = Ok tt s' /\
    board s' = board fight ++ [bd] /\
    length bd = length (answer fight) /\
    forall i g t,
      nth_error (w "tight") i = Some g ->
      nth_error (answer fight) i = Some t ->
      (g = t ->
         nth_error bd i = Some green_square /\
         dict_get i (equals s') = Some t) /\
      (g <> t -> In g (answer fight) ->
         nth_error bd i = Some yellow_square /\
         dict_get i (contains s') =
           Some (letters_at i (contains fight) ++ [g])) /\
      (g <> t -> ~ In g (answer fight) ->
         nth_error bd i = Some gray_square /\
         In g (not_in s')).
Proof.
  apply (check_word_feedback fight (w "tight")); reflexivity.
Defined.

(** C6, as the code has it.  [check_word] never compares the two lengths.
    On a session not yet solved, a guess shorter than the answer makes the
    loop raise [IndexError] at the first position the guess lacks, before
    any line is added to the board; a guess longer than the answer is
    accepted, and evaluated exactly as its first letters would be. *)
Theorem check_word_length_unchecked (s : Wordle) (guess : word) :
  solved s = false ->
  (length guess < length (answer s) ->
     exists s', check_word guess s = Raise IndexError s' /\
                board s' = board s) /\
  (length (answer s) < length guess ->
     exists s', check_word guess s = Ok tt s' /\
                check_word (firstn (length (answer s)) guess) s = Ok tt s').
Proof.
  intro Hs. split; intro Hl.
  - eexists. split; [now apply check_word_short |].
    apply absorb_all_fields.
  - set (n := length (answer s)).
    assert (Hf : length (firstn n guess) = n)
      by (rewrite length_firstn; lia).
    assert (Hx : forall j, In j (seq 0 n) ->
                 letter (firstn n guess) j = letter guess j).
    { intros j Hj. apply in_seq0 in Hj. unfold letter.
      rewrite nth_firstn. apply Nat.ltb_lt in Hj. now rewrite Hj. }
    eexists. split; [apply check_word_ok; [exact Hs | lia] |].
    rewrite check_word_ok by (trivial; fold n; lia).
    cbv zeta. fold n.
    now rewrite (absorb_all_ext _ _ _ s Hx), (marks_ext _ _ _ _ Hx).
Qed.

Lemma check_word_length_unchecked_witness :
  (length (w "fig") < length (answer fight) ->
     exists s', check_word (w "fig") fight = Raise IndexError s' /\
                board s' = board fight) /\
  (length (answer fight) < length (w "fig") ->
     exists s', check_word (w "fig") fight = Ok tt s' /\
                check_word (firstn (length (answer fight)) (w "fig")) fight
                = Ok tt s').
Proof.
  apply (check_word_length_unchecked fight (w "fig")). reflexivity.
Defined.

(** C6 as stated fails: a six-letter guess against the five-letter answer
    is evaluated without any error. *)
Lemma check_word_longer_guess_accepted :
  length (w "fights") <> length (answer fight) /\
  (exists s', check_word (w "fights") fight = Ok tt s') /\
  forall e s', check_word (w "fights") fight <> Raise e s'.
Proof.
  split; [simpl; lia |]. split; [eexists; reflexivity |].
  intros e s'. vm_compute. discriminate.
Qed.

(** *** Absorbing the same feedback twice *)

Lemma twice_unsolved guess s :
  solved s = false -> length (answer s) <= length guess ->
  exists s1 s2,
    check_word guess s = Ok tt s1 /\ check_word guess s1 = Ok tt s2 /\
    answer s1 = answer s /\
    equals s1 = equals (absorb_all guess (seq 0 (length (answer s))) s) /\
    contains s1 = contains (absorb_all guess (seq 0 (length (answer s))) s) /\
    not_in s1 = not_in (absorb_all guess (seq 0 (length (answer s))) s) /\
    equals s2 = equals (absorb_all guess (seq 0 (length (answer s))) s1) /\
    contains s2 =
      contains (absorb_all guess (seq 0 (length (answer s))) s1) /\
    not_in s2 = not_in (absorb_all guess (seq 0 (length (answer s))) s1).
Proof.
  intros Hs Hl.
  pose proof (check_word_ok guess s Hs Hl) as H1. cbv zeta in H1.
  set (n := length (answer s)) in *.
  set (s1 := set_board _ _) in H1.
  assert (Ha : answer s1 = answer s) by apply absorb_all_answer.
  assert (Hs1 : solved s1 = false).
  { unfold s1. cbn [solved set_board].
    destruct (absorb_all_fields guess (seq 0 n) s)
      as (_ & _ & _ & _ & -> & _). exact Hs. }
  assert (Hl1 : length (answer s1) <= length guess) by (rewrite Ha; exact Hl).
  pose proof (check_word_ok guess s1 Hs1 Hl1) as H2. cbv zeta in H2.
  rewrite Ha in H2. fold n in H2.
  exists s1. eexists. split; [exact H1 |]. split; [exact H2 |].
  repeat split; trivial.
Qed.

(** C5, as the code has it.  A second [check_word] of the same guess
    leaves [self.equals] as the first left it, but [self.contains[i]] and
    [self.not_in] are lists that are appended to without a membership
    test: each Present letter is stored once more at its position and
    each Absent letter once more in [self.not_in].  The constraint state
    after two absorptions therefore holds the same letters as after one,
    with repetitions. *)
Theorem check_word_twice (s : Wordle) (guess : word) :
  length (answer s) <= length guess ->
  exists s1 s2,
    check_word guess s = Ok tt s1 /\
    check_word guess s1 = Ok tt s2 /\
    equals s2 = equals s1 /\
    (forall k c, In c (letters_at k (contains s2)) <->
                 In c (letters_at k (contains s1))) /\
    (forall c, In c (not_in s2) <-> In c (not_in s1)) /\
    (solved s = false ->
       not_in s2 =
         not_in s1 ++
         absent_letters (answer s) guess (seq 0 (length (answer s))) /\
       forall i g t,
         nth_error guess i = Some g ->
         nth_error (answer s) i = Some t ->
         g <> t -> In g (answer s) ->
         dict_get i (contains s1) =
           Some (letters_at i (contains s) ++ [g]) /\
         dict_get i (contains s2) =
           Some ((letters_at i (contains s) ++ [g]) ++ [g])).
Proof.
  intro Hl. destruct (solved s) eqn:Hs.
  - exists s, s. rewrite (check_word_solved guess s Hs).
    repeat split; trivial; discriminate.
  - destruct (twice_unsolved guess s Hs Hl)
      as (s1 & s2 & H1 & H2 & Ha & He1 & Hc1 & Hn1 & He2 & Hc2 & Hn2).
    set (n := length (answer s)) in *.
    pose proof (seq_NoDup n 0) as Hnd.
    exists s1, s2. split; [exact H1 |]. split; [exact H2 |].
    assert (Hcs1 : forall k,
              In k (seq 0 n) ->
              mark (answer s) (letter guess k) (letter (answer s) k)
                = yellow_square ->
              dict_get k (contains s1) =
                Some (letters_at k (contains s) ++ [letter guess k])).
    { intros k Hk Hm. rewrite Hc1. now apply contains_recorded. }
    assert (Hcs2 : forall k,
              In k (seq 0 n) ->
              mark (answer s) (letter guess k) (letter (answer s) k)
                = yellow_square ->
              dict_get k (contains s2) =
                Some (letters_at k (contains s1) ++ [letter guess k])).
    { intros k Hk Hm. rewrite Hc2. apply contains_recorded; trivial.
      now rewrite Ha. }
    split; [| split; [| split; [| split]]].
    + rewrite He2. apply equals_stable. intros k Hk Hm.
      rewrite Ha in Hm. rewrite He1. now apply equals_recorded.
    + intros k c.
      destruct (in_dec Nat.eq_dec k (seq 0 n)) as [Hk | Hk].
      * destruct (mark (answer s) (letter guess k) (letter (answer s) k))
          eqn:Em.
        -- unfold letters_at. rewrite Hc2, contains_untouched; [tauto |].
           right. rewrite Ha, Em. discriminate.
        -- assert (E1 : letters_at k (contains s1) =
                         letters_at k (contains s) ++ [letter guess k])
             by (unfold letters_at at 1; now rewrite (Hcs1 k Hk Em)).
           unfold letters_at at 1. rewrite (Hcs2 k Hk Em), E1.
           rewrite !in_app_iff. simpl. tauto.
        -- unfold letters_at. rewrite Hc2, contains_untouched; [tauto |].
           right. rewrite Ha, Em. discriminate.
      * unfold letters_at. rewrite Hc2, contains_untouched; [tauto |].
        now left.
    + intro c. rewrite Hn2, not_in_recorded, Ha, Hn1, not_in_recorded.
      rewrite !in_app_iff. tauto.
    + now rewrite Hn2, not_in_recorded, Ha.
    + intros i g t Hg Ht Hne Hin.
      assert (Hi : i < n) by (apply nth_error_Some; congruence).
      apply in_seq0 in Hi.
      apply letter_nth_error in Hg, Ht.
      assert (Hm : mark (answer s) (letter guess i) (letter (answer s) i)
                   = yellow_square)
        by (rewrite Hg, Ht; now apply mark_yellow).
      assert (E1 : letters_at i (contains s1) =
                   letters_at i (contains s) ++ [letter guess i])
        by (unfold letters_at at 1; now rewrite (Hcs1 i Hi Hm)).
      rewrite (Hcs2 i Hi Hm), E1, (Hcs1 i Hi Hm), Hg. split; reflexivity.
Qed.

Lemma check_word_twice_witness :
  exists s1 s2,
    check_word (w "thigh") fight = Ok tt s1 /\
    check_word (w "thigh") s1 = Ok tt s2 /\
    equals s2 = equals s1 /\
    (forall k c, In c (letters_at k (contains s2)) <->
                 In c (letters_at k (contains s1))) /\
    (forall c, In c (not_in s2) <-> In c (not_in s1)) /\
    (solved fight = false ->
       not_in s2 =
         not_in s1 ++
         absent_letters (answer fight) (w "thigh")
                        (seq 0 (length (answer fight))) /\
       forall i g t,
         nth_error (w "thigh") i = Some g ->
         nth_error (answer fight) i = Some t ->
         g <> t -> In g (answer fight) ->
         dict_get i (contains s1) =
           Some (letters_at i (contains fight) ++ [g]) /\
         dict_get i (contains s2) =
           Some ((letters_at i (contains fight) ++ [g]) ++ [g])).
Proof.
  apply (check_word_twice fight (w "thigh")). simpl. lia.
Defined.

(** C5 as stated fails: absorbing the feedback of "thigh" against "fight"
    twice stores the Present letter [t] twice at position [0]. *)
Lemma check_word_twice_duplicates :
  exists s1 s2,
    check_word (w "thigh") fight = Ok tt s1 /\
    check_word (w "thigh") s1 = Ok tt s2 /\
    dict_get 0 (contains s1) = Some ["t"%char] /\
    dict_get 0 (contains s2) = Some ["t"%char; "t"%char] /\
    contains s2 <> contains s1.
Proof.
  exists (final (check_word (w "thigh") fight)).
  exists (final (check_word (w "thigh")
                   (final (check_word (w "thigh") fight)))).
  vm_compute. repeat split. discriminate.
Qed.

(** ** The guess selector on a well-formed candidate set *)

Lemma fold_plus_pos (l : list Q) : forall acc : Q,
  (0 < acc)%Q -> (forall q, In q l -> (0 < q)%Q) ->
  (0 < fold_left Qplus l acc)%Q.
Proof.
  induction l as [| q l IH]; intros acc Ha Hl; simpl; [exact Ha |].
  apply IH.
  - assert (0 < q)%Q by (apply Hl; now left). lra.
  - intros q' Hq'. apply Hl. now right.
Qed.

Lemma sum_pos (l : list Q) :
  l <> [] -> (forall q, In q l -> (0 < q)%Q) -> (0 < sum l)%Q.
Proof.
  destruct l as [| q l]; [congruence |]. intros _ Hl. unfold sum. simpl.
  apply fold_plus_pos.
  - assert (0 < q)%Q by (apply Hl; now left). lra.
  - intros q' Hq'. apply Hl. now right.
Qed.

Lemma pydiv_pos (v tot : Q) :
  (0 < tot)%Q -> pydiv v tot = Val (v / tot)%Q.
Proof.
  intro Ht. unfold pydiv.
  destruct (Qeq_bool tot 0) eqn:E; [| reflexivity].
  apply Qeq_bool_iff in E. lra.
Qed.

Lemma div_pos (v tot : Q) : (0 < v)%Q -> (0 < tot)%Q -> (0 < v / tot)%Q.
Proof.
  intros Hv Ht. apply Qlt_shift_div_l; [exact Ht |]. lra.
Qed.

Lemma positive_true q : (0 < q)%Q -> positive q = true.
Proof.
  intro H. unfold positive. destruct (Qle_bool q 0) eqn:E; [| reflexivity].
  apply Qle_bool_iff in E. lra.
Qed.

Lemma negative_false q : (0 < q)%Q -> negative q = false.
Proof.
  intro H. unfold negative.
  assert (E : Qle_bool 0 q = true) by (apply Qle_bool_iff; lra).
  now rewrite E.
Qed.

Lemma dict_map_div (tot : Q) (d : dict) :
  (0 < tot)%Q ->
  dict_map (fun v => pydiv v tot) d =
  Val (map (fun wv => (fst wv, (snd wv / tot)%Q)) d).
Proof.
  intro Ht. induction d as [| [u v] d IH]; simpl; [reflexivity |].
  rewrite (pydiv_pos v tot Ht), IH. reflexivity.
Qed.

Lemma support_all (d : dict) :
  (forall u v, In (u, v) d -> (0 < v)%Q) ->
  support (keys d) (values d) = keys d /\
  existsb negative (values d) = false.
Proof.
  induction d as [| [u v] d IH]; intro H; [split; reflexivity |].
  destruct IH as [IH1 IH2]; [intros u' v' Hin; apply (H u' v'); now right |].
  assert (Hv : (0 < v)%Q) by (apply (H u v); now left).
  unfold support in *. simpl.
  rewrite (positive_true v Hv), (negative_false v Hv). simpl.
  now rewrite IH1, IH2.
Qed.

Lemma make_guess_ok (r : nat) (s : Wordle) :
  candidates s <> [] ->
  (forall u v, In (u, v) (candidates s) -> (0 < v)%Q) ->
  exists g,
    make_guess r s = Ok g (set_guesses (guesses s ++ [g]) s) /\
    In g (keys (candidates s)).
Proof.
  intros Hne Hpos.
  set (d := candidates s) in *.
  set (tot := sum (values d)).
  assert (Ht : (0 < tot)%Q).
  { apply sum_pos.
    - unfold values. destruct d; [congruence | discriminate].
    - intros q Hq. unfold values in Hq. apply in_map_iff in Hq.
      destruct Hq as ([u v] & <- & Hin). exact (Hpos u v Hin). }
  set (probs := map (fun wv : word * Q => (fst wv, (snd wv / tot)%Q)) d).
  assert (Hk : keys probs = keys d).
  { unfold keys, probs. rewrite map_map. reflexivity. }
  assert (Hp : forall u v, In (u, v) probs -> (0 < v)%Q).
  { intros u v Hin. unfold probs in Hin. apply in_map_iff in Hin.
    destruct Hin as ([u' v'] & [= <- <-] & Hin). simpl.
    apply div_pos; [exact (Hpos u' v' Hin) | exact Ht]. }
  destruct (support_all probs Hp) as [Hsup Hneg].
  assert (Hlen : length (keys d) <> 0).
  { unfold keys. rewrite length_map. destruct d; [congruence | discriminate]. }
  destruct (nth_error (keys d) (r mod length (keys d))) as [g |] eqn:Eg.
  2:{ apply nth_error_None in Eg.
      pose proof (Nat.mod_upper_bound r _ Hlen). lia. }
  exists g. split; [| now apply nth_error_In in Eg].
  unfold make_guess, bind at 1, get. fold d. fold tot.
  unfold bind at 1. rewrite (dict_map_div tot d Ht). fold probs. simpl lift.
  cbv beta iota.
  unfold bind at 1, np_random_choice.
  rewrite Hneg, Hsup, Hk, Eg.
  destruct (keys d) eqn:Ek; [simpl in Hlen; congruence |].
  reflexivity.
Qed.

(** ** The candidate filter *)

Lemma dict_comp_filter (p : word -> res bool) (pb : word -> bool) (d : dict) :
  (forall u v, In (u, v) d -> p u = Val (pb u)) ->
  dict_comp p d = Val (filter (fun wv => pb (fst wv)) d).
Proof.
  induction d as [| [u v] d IH]; intro H; simpl; [reflexivity |].
  rewrite (H u v (or_introl eq_refl)). simpl.
  rewrite IH by (intros u' v' Hin; apply (H u' v'); now right).
  simpl. destruct (pb u); reflexivity.
Qed.

Lemma deref_alloc (h : heap) (d : dict) : deref (h ++ [d]) (length h) = d.
Proof. unfold deref. apply nth_middle. Qed.

Lemma filter_length_le {A : Type} (f : A -> bool) (l : list A) :
  length (filter f l) <= length l.
Proof.
  induction l as [| x l IH]; simpl; [lia |].
  destruct (f x); simpl; lia.
Qed.

Lemma narrows_refl s : narrows s s.
Proof.
  unfold narrows. repeat split; trivial; try apply grows_refl.
  apply incl_refl.
Qed.

Lemma narrows_trans s1 s2 s3 : narrows s1 s2 -> narrows s2 s3 -> narrows s1 s3.
Proof.
  unfold narrows.
  intros (G & A1 & A2 & A3 & A4 & A5 & A6 & A7 & A8 & A9)
         (G' & B1 & B2 & B3 & B4 & B5 & B6 & B7 & B8 & B9).
  split; [exact (grows_trans _ _ _ G G') |].
  repeat split; try congruence; try lia.
  eapply incl_tran; eassumption.
Qed.

Lemma In_keys (u : word) (d : dict) : In u (keys d) <-> exists v, In (u, v) d.
Proof.
  unfold keys. rewrite in_map_iff. split.
  - intros ([u' v] & <- & H). now exists v.
  - intros (v & H). now exists (u, v).
Qed.

(** One comprehension, for a test that raises on no candidate and accepts
    the answer. *)
Lemma refilter_ok (p : word -> res bool) (pb : word -> bool) (s : Wordle) :
  (forall u v, In (u, v) (candidates s) -> p u = Val (pb u)) ->
  pb (answer s) = true ->
  exists s',
    refilter p s = Ok tt s' /\ narrows s s' /\
    (In (answer s) (keys (candidates s)) ->
     In (answer s) (keys (candidates s'))).
Proof.
  intros Hp Ha.
  set (d' := filter (fun wv : word * Q => pb (fst wv)) (candidates s)).
  exists (set_filtered (length (store s)) (set_store (store s ++ [d']) s)).
  assert (Hc : candidates (set_filtered (length (store s))
                             (set_store (store s ++ [d']) s)) = d')
    by apply deref_alloc.
  split; [| split].
  - unfold refilter, bind at 1, get. unfold bind at 1.
    rewrite (dict_comp_filter p pb _ Hp). reflexivity.
  - unfold narrows. rewrite Hc. repeat split; trivial.
    + now exists [d'].
    + apply incl_filter.
    + apply filter_length_le.
  - rewrite Hc. intro Hin. apply In_keys in Hin. destruct Hin as (v & Hin).
    apply In_keys. exists v. apply filter_In. now split.
Qed.

Lemma forM_inv {A : Type} (I : Wordle -> Prop) (l : list A)
    (f : A -> M unit) :
  (forall x s, In x l -> I s -> exists s', f x s = Ok tt s' /\ I s') ->
  forall s, I s -> exists s', forM_ l f s = Ok tt s' /\ I s'.
Proof.
  induction l as [| x l IH]; intros Hf s Hs; simpl.
  - exists s. now split.
  - destruct (Hf x s (or_introl eq_refl) Hs) as (s1 & E1 & H1).
    destruct (IH (fun y t Hy => Hf y t (or_intror Hy)) s1 H1)
      as (s2 & E2 & H2).
    exists s2. split; [| exact H2]. unfold bind. now rewrite E1.
Qed.

Lemma forM_pure {A : Type} (l : list A) (f : A -> M unit) (s : Wordle) :
  (forall x, In x l -> f x s = Ok tt s) -> forM_ l f s = Ok tt s.
Proof.
  induction l as [| x l IH]; intro Hf; simpl; [reflexivity |].
  unfold bind. rewrite (Hf x (or_introl eq_refl)).
  apply IH. intros y Hy. apply Hf. now right.
Qed.

Section Filter.
Variable s0 : Wordle.
Hypothesis s0_consistent : consistent s0.
Hypothesis s0_lengths :
  forall u v, In (u, v) (candidates s0) -> length u = length (answer s0).


Lemma kept_answer s : kept s0 s -> answer s = answer s0.
Proof. intros [(G & _) _]. apply G. Qed.

Lemma kept_lengths s u v :
  kept s0 s -> In (u, v) (candidates s) -> length u = length (answer s0).
Proof.
  intros [(_ & _ & _ & _ & _ & _ & _ & _ & Hi & _) _] Hin.
  apply (s0_lengths u v). now apply Hi.
Qed.

Lemma kept_step p pb s :
  kept s0 s ->
  (forall u, length u = length (answer s0) -> p u = Val (pb u)) ->
  pb (answer s0) = true ->
  exists s', refilter p s = Ok tt s' /\ kept s0 s'.
Proof.
  intros Hk Hp Ha.
  destruct (refilter_ok p pb s) as (s' & E & Hn & Hin).
  - intros u v Huv. apply Hp. exact (kept_lengths s u v Hk Huv).
  - now rewrite (kept_answer s Hk).
  - exists s'. split; [exact E |]. destruct Hk as [Hn0 Hin0]. split.
    + exact (narrows_trans _ _ _ Hn0 Hn).
    + rewrite (kept_answer s (conj Hn0 Hin0)) in Hin. now apply Hin.
Qed.

Lemma keep_equal_total k c u :
  k < length u ->
  keep_equal k c u = Val (Ascii.eqb (letter u k) c).
Proof. intro H. unfold keep_equal. now rewrite index_letter. Qed.

Lemma keep_misplaced_total k c u :
  k < length u ->
  keep_misplaced k c u = Val (mem c u && negb (Ascii.eqb (letter u k) c)).
Proof.
  intro H. unfold keep_misplaced.
  destruct (mem c u); [now rewrite index_letter | reflexivity].
Qed.

Lemma filter_possible_ok :
  In (answer s0) (keys (candidates s0)) ->
  exists s',
    filter_possible s0 = Ok tt s' /\ narrows s0 s' /\
    In (answer s0) (keys (candidates s')).
Proof.
  intro Hin. destruct s0_consistent as (He & Hc & Hn).
  assert (K0 : kept s0 s0) by (split; [apply narrows_refl | exact Hin]).
  destruct (forM_inv (kept s0) (equals s0)
              (fun kc => refilter (keep_equal (fst kc) (snd kc))))
    with (s := s0) as (s1 & E1 & K1); [| exact K0 |].
  { intros [k c] s Hkc Hs. simpl.
    pose proof (He k c Hkc) as Hk.
    assert (Hlt : k < length (answer s0))
      by (apply nth_error_Some; congruence).
    apply kept_step with (pb := fun u => Ascii.eqb (letter u k) c);
      trivial.
    - intros u Hu. apply keep_equal_total. lia.
    - apply letter_nth_error in Hk. rewrite Hk. apply Ascii.eqb_refl. }
  destruct (forM_inv (kept s0) (contains s0)
              (fun kl => forM_ (snd kl)
                 (fun c => refilter (keep_misplaced (fst kl) c))))
    with (s := s1) as (s2 & E2 & K2); [| exact K1 |].
  { intros [k l] s Hkl Hs. simpl.
    apply forM_inv; [| exact Hs].
    intros c t Hcl Ht.
    destruct (Hc k l c Hkl Hcl) as (Hm & a & Ha & Hne).
    assert (Hlt : k < length (answer s0))
      by (apply nth_error_Some; congruence).
    apply kept_step
      with (pb := fun u => mem c u && negb (Ascii.eqb (letter u k) c));
      trivial.
    - intros u Hu. apply keep_misplaced_total. lia.
    - apply letter_nth_error in Ha. rewrite Hm, Ha. simpl.
      apply Ascii.eqb_neq in Hne. now rewrite Hne. }
  destruct (forM_inv (kept s0) (not_in s0)
              (fun c => refilter (keep_without c)))
    with (s := s2) as (s3 & E3 & K3); [| exact K2 |].
  { intros c s Hcn Hs.
    apply kept_step with (pb := fun u => negb (mem c u)); trivial.
    now rewrite (Hn c Hcn). }
  exists s3. split; [| exact K3].
  unfold filter_possible, bind at 1, get.
  unfold bind at 1. rewrite E1.
  unfold bind at 1. rewrite E2. exact E3.
Qed.
End Filter.

(** ** One round *)

Lemma check_word_effect guess s :
  solved s = false -> length (answer s) <= length guess ->
  exists s',
    check_word guess s = Ok tt s' /\
    answer s' = answer s /\ store s' = store s /\ freq s' = freq s /\
    played s' = played s /\ solved s' = solved s /\
    filtered s' = filtered s /\ guesses s' = guesses s /\
    length (board s') = S (length (board s)) /\
    (consistent s -> consistent s').
Proof.
  intros Hs Hl. eexists. split; [now apply check_word_ok |].
  cbn [answer store freq played solved filtered guesses board set_board].
  destruct (absorb_all_fields guess (seq 0 (length (answer s))) s)
    as (Ha & Hst & Hf & Hp & Hso & Hfi & Hg & Hb).
  do 7 (split; [assumption |]). split.
  - rewrite Hb, length_app. simpl. lia.
  - intro Hc.
    apply (absorb_all_consistent guess (seq 0 (length (answer s))) s) in Hc.
    + exact Hc.
    + intros j Hj. now apply in_seq0.
Qed.

Lemma round_ok r s :
  in_progress s ->
  exists g s',
    round r s = Ok g s' /\
    In g (keys (candidates s)) /\
    guesses s' = guesses s ++ [g] /\
    answer s' = answer s /\ grows s s' /\ played s' = played s /\
    In (answer s) (keys (candidates s')) /\
    incl (candidates s') (candidates s) /\
    length (candidates s') <= length (candidates s) /\
    in_progress s'.
Proof.
  intros (Hs & Hc & Hin & Hwf & Hh).
  destruct (make_guess_ok r s) as (g & Eg & Hg).
  { intro E. rewrite E in Hin. destruct Hin. }
  { intros u v Huv. now apply (Hwf u v). }
  set (sa := set_guesses (guesses s ++ [g]) s) in Eg.
  assert (Hlg : length g = length (answer s)).
  { apply In_keys in Hg. destruct Hg as (v & Hv). now apply (Hwf g v). }
  destruct (check_word_effect g sa) as
    (sb & Eb & Ba & Bst & Bf & Bp & Bso & Bfi & Bg & Bb & Bc);
    [exact Hs | simpl; lia |].
  assert (Hcb : candidates sb = candidates s)
    by (unfold candidates; now rewrite Bst, Bfi).
  destruct (filter_possible_ok sb) as (sc & Ec & Hn & Hinc).
  { apply Bc. exact Hc. }
  { intros u v Huv. rewrite Hcb in Huv. rewrite Ba. now apply (Hwf u v). }
  { rewrite Hcb, Ba. exact Hin. }
  destruct Hn as (G & Np & Nso & Nn & Nc & Ne & Ng & Nb & Ni & Nl).
  rewrite Hcb in Ni, Nl. rewrite Ba in Hinc. simpl in Ba.
  assert (Gs : grows s sc).
  { apply (grows_trans s sb sc); [| exact G].
    apply grows_same_store; trivial. }
  assert (Ac : answer sc = answer s) by apply Gs.
  exists g, sc.
  split; [unfold round, bind; rewrite Eg, Eb, Ec; reflexivity |].
  split; [exact Hg |].
  split; [now rewrite Ng, Bg |].
  split; [exact Ac |]. split; [exact Gs |].
  split; [now rewrite Np, Bp |].
  split; [exact Hinc |]. split; [exact Ni |]. split; [exact Nl |].
  unfold in_progress. rewrite Ac.
  split; [now rewrite Nso, Bso |].
  split; [| split; [exact Hinc | split]].
  - specialize (Bc Hc). unfold consistent in *.
    rewrite Ac, Ne, Nc, Nn. rewrite Ba in Bc. exact Bc.
  - intros u v Huv. apply (Hwf u v). now apply Ni.
  - rewrite Nb, Ng, Bb, Bg. simpl. rewrite length_app. simpl. lia.
Qed.

Lemma play_rounds_S rs i n s :
  play_rounds rs i (S n) s =
  bind (round (rs i)) (fun guess =>
    b <- is_solved guess ;;
    if b then modify (set_solved true) else play_rounds rs (S i) n) s.
Proof.
  simpl. unfold round, bind.
  destruct (make_guess (rs i) s) as [g s1 | e s1]; [| reflexivity].
  destruct (check_word g s1) as [[] s2 | e s2]; [| reflexivity].
  destruct (filter_possible s2) as [[] s3 | e s3]; reflexivity.
Qed.

Lemma play_rounds_ok rs n : forall i s,
  in_progress s ->
  exists s' gs,
    play_rounds rs i n s = Ok tt s' /\
    answer s' = answer s /\ grows s s' /\ played s' = played s /\
    guesses s' = guesses s ++ gs /\
    length (board s') = length (guesses s') /\
    In (answer s) (keys (candidates s')) /\
    incl (candidates s') (candidates s) /\
    ((solved s' = true /\
      exists gs0, gs = gs0 ++ [answer s] /\ ~ In (answer s) gs0 /\
                  length gs <= n) \/
     (in_progress s' /\ ~ In (answer s) gs /\ length gs = n)).
Proof.
  induction n as [| n IH]; intros i s Hip.
  - exists s, []. simpl. rewrite app_nil_r.
    pose proof Hip as (Hs & Hc & Hin & Hwf & Hh).
    split; [reflexivity |]. split; [reflexivity |].
    split; [apply grows_refl |]. split; [reflexivity |].
    split; [reflexivity |]. split; [exact Hh |]. split; [exact Hin |].
    split; [apply incl_refl |].
    right. split; [exact Hip |]. split; [intros [] | reflexivity].
  - destruct (round_ok (rs i) s Hip)
      as (g & s1 & E1 & Hg & G1 & A1 & Gr1 & P1 & In1 & Inc1 & _ & Hip1).
    rewrite play_rounds_S. unfold bind at 1. rewrite E1.
    unfold bind at 1.
    change (is_solved g s1) with (Ok (eqb_word g (answer s1)) s1).
    cbv beta iota. rewrite A1.
    destruct (eqb_word g (answer s)) eqn:Eb.
    + apply eqb_word_eq in Eb. subst g.
      exists (set_solved true s1), [answer s]. unfold modify.
      destruct Hip1 as (_ & _ & _ & _ & Hh1).
      split; [reflexivity |]. split; [exact A1 |].
      split; [exact Gr1 |]. split; [exact P1 |].
      split; [exact G1 |]. split; [exact Hh1 |]. split; [exact In1 |].
      split; [exact Inc1 |].
      left. split; [reflexivity |]. exists [].
      split; [reflexivity |]. split; [intros [] | simpl; lia].
    + destruct (IH (S i) s1 Hip1)
        as (s' & gs & E & A & Gr & P & G & Hh & Hin & Inc & Hcase).
      assert (Hne : g <> answer s).
      { intros ->. now rewrite eqb_word_refl in Eb. }
      exists s', (g :: gs). rewrite A1 in *.
      split; [exact E |]. split; [congruence |].
      split; [exact (grows_trans _ _ _ Gr1 Gr) |].
      split; [congruence |].
      split; [rewrite G, G1, <- app_assoc; reflexivity |].
      split; [exact Hh |]. split; [exact Hin |].
      split; [exact (incl_tran Inc Inc1) |].
      destruct Hcase as [(Hs & gs0 & -> & Hn0 & Hl) | (Hp' & Hn & Hl)].
      * left. split; [exact Hs |]. exists (g :: gs0).
        split; [reflexivity |]. split.
        -- intros [H | H]; [now apply Hne | now apply Hn0].
        -- simpl in *. lia.
      * right. split; [exact Hp' |]. split.
        -- intros [H | H]; [now apply Hne | now apply Hn].
        -- simpl. lia.
Qed.

(** ** A whole game *)

Lemma print_state_ok s :
  length (board s) = length (guesses s) -> print_state s = Ok tt s.
Proof.
  intro H. unfold print_state, bind, get. apply forM_pure.
  intros i Hi. apply in_seq0 in Hi.
  unfold index.
  destruct (nth_error (board s) i) eqn:E1;
    [| apply nth_error_None in E1; lia].
  destruct (nth_error (guesses s) i) eqn:E2;
    [| apply nth_error_None in E2; lia].
  reflexivity.
Qed.

Lemma fresh_in_progress s : fresh s -> well_formed s -> in_progress s.
Proof.
  intros (Hp & Hs & Hf & Hn & Hc & He & Hg & Hb) (Hwf & Hin).
  assert (Hcand : candidates s = lexicon s)
    by (unfold candidates, lexicon; now rewrite Hf).
  unfold in_progress, consistent. rewrite Hcand, Hn, Hc, He, Hg, Hb.
  repeat split; trivial; try (intros; contradiction);
    now apply (Hwf w0 v).
Qed.

Lemma play_unplayed rs s : played s = false -> play rs s = play_fresh rs s.
Proof.
  intro Hp. unfold play, bind at 1 2, get. rewrite Hp. reflexivity.
Qed.



Lemma positive_sound q : positive q = true -> (0 < q)%Q.
Proof.
  unfold positive. intro H. apply negb_true_iff in H.
  apply Qnot_le_lt. intro Hle. apply Qle_bool_iff in Hle. congruence.
Qed.

Lemma lexicon_okb_sound ans d :
  lexicon_okb ans d = true ->
  forall u v, In (u, v) d -> length u = length ans /\ (0 < v)%Q.
Proof.
  unfold lexicon_okb. intros H u v Hin.
  rewrite forallb_forall in H. specialize (H (u, v) Hin). simpl in H.
  apply andb_true_iff in H. destruct H as [Hl Hp].
  split; [now apply Nat.eqb_eq | now apply positive_sound].
Qed.

Lemma well_formedb_sound s : well_formedb s = true -> well_formed s.
Proof.
  unfold well_formedb, well_formed. intro H.
  apply andb_true_iff in H. destruct H as [H1 H2].
  split; [now apply lexicon_okb_sound | now apply In_keys_exists].
Qed.

Lemma init_in_progress version ans d s0 :
  init version ans d = Val s0 ->
  (forall u v, In (u, v) d -> length u = length ans /\ (0 < v)%Q) ->
  in_progress s0 /\ candidates s0 = d /\ answer s0 = ans /\ guesses s0 = [].
Proof.
  intros Hi Hd. apply init_inv in Hi. destruct Hi as (-> & _ & Hin).
  split; [| repeat split].
  apply fresh_in_progress; [repeat split |].
  split; [exact Hd | now apply In_keys_exists].
Qed.

(** ** The session properties *)

Lemma return_total_moves_failed s :
  solved s = false -> length (guesses s) = 6 ->
  return_total_moves s = Ok 7 s.
Proof.
  intros Hs Hl. unfold return_total_moves, bind, get. now rewrite Hs, Hl.
Qed.

Lemma return_total_moves_solved s :
  solved s = true -> return_total_moves s = Ok (length (guesses s)) s.
Proof.
  intro Hs. unfold return_total_moves, bind, get. now rewrite Hs.
Qed.

(** C7 as stated fails: over the lexicon [ight], the draws that pick the
    first candidate each time guess "light", "might", "night", "right",
    "sight" and "tight"; the game ends unsolved after its six rounds and
    [return_total_moves] answers 7, not 6. *)
Lemma exhausted_game_reports_seven :
  exists s',
    play (fun _ => 0) fight = Ok false s' /\
    guesses s' = [w "light"; w "might"; w "night"; w "right"; w "sight";
                  w "tight"] /\
    return_total_moves s' = Ok 7 s' /\
    return_total_moves s' <> Ok 6 s'.
Proof.
  exists (final (play (fun _ => 0) fight)).
  vm_compute. repeat split. discriminate.
Qed.

(** * Further properties of the methods *)

(** ** The guess selector *)

(** X2. When the candidate dictionary is not empty but its scores sum to
    zero (every candidate left is a word the frequency table does not
    know), [make_guess] raises [ZeroDivisionError] at the first quotient;
    no guess is recorded. *)
Theorem make_guess_zero_total (r : nat) (s : Wordle) :
  candidates s <> [] ->
  (sum (values (candidates s)) == 0)%Q ->
  make_guess r s = Raise ZeroDivisionError s.
Proof.
  intros Hne Hz. unfold make_guess, bind at 1, get.
  destruct (candidates s) as [| [u v] d] eqn:Ed; [congruence |].
  unfold bind. cbn [dict_map]. unfold pydiv.
  apply Qeq_bool_iff in Hz. now rewrite Hz.
Qed.

Lemma make_guess_zero_total_witness :
  candidates last_zero <> [] /\
  (sum (values (candidates last_zero)) == 0)%Q /\
  make_guess 0 last_zero = Raise ZeroDivisionError last_zero.
Proof.
  assert (H1 : candidates last_zero <> []) by discriminate.
  assert (H2 : (sum (values (candidates last_zero)) == 0)%Q)
    by reflexivity.
  split; [exact H1 |]. split; [exact H2 |].
  exact (make_guess_zero_total 0 last_zero H1 H2).
Defined.

Lemma combine_keys_values (d : dict) : combine (keys d) (values d) = d.
Proof.
  induction d as [| [u v] d IH]; simpl; [reflexivity | now rewrite IH].
Qed.

Lemma dict_map_div_nonzero (tot : Q) (d : dict) :
  Qeq_bool tot 0 = false ->
  dict_map (fun v => pydiv v tot) d =
  Val (map (fun wv => (fst wv, (snd wv / tot)%Q)) d).
Proof.
  intro Ht. induction d as [| [u v] d IH]; simpl; [reflexivity |].
  unfold pydiv at 1. rewrite Ht. simpl. rewrite IH. reflexivity.
Qed.

Lemma np_random_choice_support r a p g :
  np_random_choice r a p = Val g -> In g (support a p).
Proof.
  unfold np_random_choice. destruct a as [| x a]; [discriminate |].
  destruct (existsb negative p); [discriminate |].
  destruct (nth_error _ _) as [g' |] eqn:E; [| discriminate].
  intros [= <-]. now apply nth_error_In in E.
Qed.

Lemma make_guess_inv r s g s' :
  make_guess r s = Ok g s' ->
  s' = set_guesses (guesses s ++ [g]) s /\
  exists v, In (g, v) (candidates s) /\ ~ (v == 0)%Q.
Proof.
  unfold make_guess, bind at 1, get.
  set (d := candidates s). set (tot := sum (values d)).
  destruct (Qeq_bool tot 0) eqn:Et.
  - destruct d as [| [u v] d'].
    + unfold bind. simpl. discriminate.
    + unfold bind. cbn [dict_map]. unfold pydiv. rewrite Et. simpl.
      discriminate.
  - unfold bind at 1. rewrite (dict_map_div_nonzero tot d Et). simpl lift.
    cbv beta iota. unfold bind at 1.
    set (probs := map (fun wv : word * Q => (fst wv, (snd wv / tot)%Q)) d).
    destruct (np_random_choice r (keys probs) (values probs)) as [g' | e]
      eqn:Ec; simpl; [| discriminate].
    unfold bind, modify, ret. intros [= <- <-].
    split; [reflexivity |].
    apply np_random_choice_support in Ec. unfold support in Ec.
    rewrite combine_keys_values in Ec. apply in_map_iff in Ec.
    destruct Ec as ([g0 q] & Hg & Hin). simpl in Hg. subst g0.
    apply filter_In in Hin. destruct Hin as [Hin Hq]. simpl in Hq.
    unfold probs in Hin. apply in_map_iff in Hin.
    destruct Hin as ([u v] & [= -> <-] & Hin). simpl in Hq.
    exists v. split; [exact Hin |].
    intro Hv. apply positive_sound in Hq.
    assert (E : (v / tot == 0)%Q) by (rewrite Hv; unfold Qdiv; ring).
    rewrite E in Hq. lra.
Qed.

(** X3. Whenever [make_guess] returns, the word it returns is a key of
    the candidate dictionary whose score is not zero (a word of score
    zero has probability zero and is never drawn), that word has been
    appended to [self.guesses], and nothing else has changed. *)
Theorem make_guess_returns_scored_candidate (r : nat) (s : Wordle)
    (g : word) (s' : Wordle) :
  make_guess r s = Ok g s' ->
  guesses s' = guesses s ++ [g] /\
  s' = set_guesses (guesses s ++ [g]) s /\
  In g (keys (candidates s)) /\
  exists v, In (g, v) (candidates s) /\ ~ (v == 0)%Q.
Proof.
  intro H. destruct (make_guess_inv r s g s' H) as (-> & v & Hin & Hv).
  split; [reflexivity |]. split; [reflexivity |].
  split; [apply In_keys; now exists v | now exists v].
Qed.

Lemma make_guess_returns_scored_candidate_witness :
  guesses (set_guesses [w "night"] fight) = guesses fight ++ [w "night"] /\
  set_guesses [w "night"] fight =
    set_guesses (guesses fight ++ [w "night"]) fight /\
  In (w "night") (keys (candidates fight)) /\
  exists v, In (w "night", v) (candidates fight) /\ ~ (v == 0)%Q.
Proof.
  apply (make_guess_returns_scored_candidate 2 fight (w "night")
           (set_guesses [w "night"] fight)).
  reflexivity.
Defined.

(** X4. With a single candidate of non-zero score, [make_guess] returns
    that candidate whatever the draw. *)
Theorem make_guess_single_candidate (r : nat) (s : Wordle)
    (u : word) (v : Q) :
  candidates s = [(u, v)] ->
  ~ (v == 0)%Q ->
  make_guess r s = Ok u (set_guesses (guesses s ++ [u]) s).
Proof.
  intros Hc Hv.
  assert (Hne : candidates s <> []) by (rewrite Hc; discriminate).
  destruct (make_guess r s) as [g s' | e s'] eqn:E.
  - destruct (make_guess_inv r s g s' E) as (-> & v' & Hin & _).
    rewrite Hc in Hin. destruct Hin as [[= <- <-] | []]. reflexivity.
  - exfalso. revert E. unfold make_guess, bind at 1, get. rewrite Hc.
    cbn [values map snd]. unfold sum. cbn [fold_left].
    assert (Et : Qeq_bool (0 + v) 0 = false).
    { destruct (Qeq_bool (0 + v) 0) eqn:Eb; [| reflexivity].
      apply Qeq_bool_iff in Eb. exfalso. apply Hv. lra. }
    unfold bind at 1. rewrite (dict_map_div_nonzero _ _ Et). simpl lift.
    cbv beta iota. cbn [map fst snd].
    assert (E1 : (v / (0 + v) == 1)%Q) by (field; lra).
    assert (Hp : positive (v / (0 + v)) = true)
      by (apply positive_true; rewrite E1; lra).
    assert (Hn : negative (v / (0 + v)) = false)
      by (apply negative_false; rewrite E1; lra).
    unfold bind at 1, np_random_choice, support.
    cbn [keys values map fst snd existsb combine filter].
    rewrite Hn, Hp. cbn [orb map fst length].
    rewrite Nat.mod_1_r. simpl. discriminate.
Qed.

Lemma make_guess_single_candidate_witness :
  make_guess 7 last_one =
  Ok (w "fight") (set_guesses (guesses last_one ++ [w "fight"]) last_one).
Proof.
  apply (make_guess_single_candidate 7 last_one (w "fight") 4%Q).
  - reflexivity.
  - intro H. discriminate H.
Defined.

(** ** The evaluator, however it ends *)

Lemma untouched_refl s : untouched s s.
Proof. repeat split. Qed.

Lemma untouched_trans s1 s2 s3 :
  untouched s1 s2 -> untouched s2 s3 -> untouched s1 s3.
Proof.
  unfold untouched.
  intros (A1 & A2 & A3 & A4 & A5 & A6 & A7) (B1 & B2 & B3 & B4 & B5 & B6 & B7).
  repeat split; congruence.
Qed.

Lemma check_letter_cases guess bd j s :
  check_letter guess bd j s = Raise IndexError s \/
  (j < length (answer s) /\ j < length guess /\
   check_letter guess bd j s =
   Ok (bd ++ [mark (answer s) (letter guess j) (letter (answer s) j)])
      (absorb j (letter guess j) (letter (answer s) j) s)).
Proof.
  destruct (Nat.lt_ge_cases j (length (answer s))) as [Ha | Ha].
  - destruct (Nat.lt_ge_cases j (length guess)) as [Hg | Hg].
    + right. split; [exact Ha |]. split; [exact Hg |].
      now apply check_letter_ok.
    + left. now apply check_letter_short.
  - left. unfold check_letter, bind at 1 2, get.
    now rewrite (index_out _ _ Ha).
Qed.

Lemma check_letter_untouched guess bd j :
  frame untouched (check_letter guess bd j).
Proof.
  intro s. destruct (check_letter_cases guess bd j s) as [E | (_ & _ & E)];
    rewrite E; simpl; [apply untouched_refl |].
  destruct (absorb_fields j (letter guess j) (letter (answer s) j) s)
    as (F1 & F2 & F3 & F4 & F5 & F6 & F7 & F8).
  repeat split; assumption.
Qed.

Lemma check_word_untouched guess : frame untouched (check_word guess).
Proof.
  unfold check_word. frame_walk untouched_refl untouched_trans.
  - apply check_letter_untouched.
  - repeat split.
Qed.

Lemma check_letter_consistent guess bd j :
  preserves consistent (check_letter guess bd j).
Proof.
  intros s Hc. destruct (check_letter_cases guess bd j s) as [E | (Hj & _ & E)];
    rewrite E; simpl; [exact Hc |].
  now apply absorb_consistent.
Qed.

Lemma check_loop_consistent guess js : forall bd,
  preserves consistent (foldM (check_letter guess) js bd).
Proof.
  induction js as [| j js IH]; intros bd s Hc; simpl; [exact Hc |].
  unfold bind. pose proof (check_letter_consistent guess bd j s Hc) as H.
  destruct (check_letter guess bd j s) as [bd' s' | e s']; simpl in *.
  - now apply IH.
  - exact H.
Qed.

Lemma check_word_consistent guess : preserves consistent (check_word guess).
Proof.
  intros s Hc. unfold check_word, bind at 1, get.
  destruct (solved s); [exact Hc |].
  unfold bind.
  pose proof (check_loop_consistent guess (seq 0 (length (answer s))) [] s Hc)
    as H.
  destruct (foldM _ _ _ s) as [bd s' | e s']; simpl in *; exact H.
Qed.

Lemma check_loop_board guess js : forall bd s,
  board (final (foldM (check_letter guess) js bd s)) = board s.
Proof.
  induction js as [| j js IH]; intros bd s; simpl; [reflexivity |].
  unfold bind.
  destruct (check_letter_cases guess bd j s) as [E | (_ & _ & E)];
    rewrite E; [reflexivity |].
  rewrite IH. apply absorb_fields.
Qed.

Lemma check_word_board guess s :
  board (final (check_word guess s)) = board s \/
  exists bd, board (final (check_word guess s)) = board s ++ [bd].
Proof.
  assert (E : check_word guess s =
              if solved s then Ok tt s
              else match foldM (check_letter guess)
                           (seq 0 (length (answer s))) [] s with
                   | Ok bd s1 => Ok tt (set_board (board s1 ++ [bd]) s1)
                   | Raise e s1 => Raise e s1
                   end).
  { unfold check_word, bind, get. destruct (solved s); reflexivity. }
  rewrite E. clear E.
  destruct (solved s); [now left |].
  pose proof (check_loop_board guess (seq 0 (length (answer s))) [] s) as Hb.
  destruct (foldM _ _ _ s) as [bd s1 | e s1]; cbn [final] in *.
  - right. exists bd. cbn [board set_board]. now rewrite Hb.
  - now left.
Qed.

(** X5. However [check_word] ends, normally or on an [IndexError] in the
    middle of a short guess, it has touched nothing but the constraint
    containers and the board: the answer, the lexicon, the candidate
    dictionary, the guesses and both flags are as before.  The board is
    as before or one line longer.  And if every constraint recorded
    before was true of the answer, every constraint recorded afterwards
    is. *)
Theorem check_word_leaves_rest (guess : word) (s : Wordle) :
  let s' := final (check_word guess s) in
  untouched s s' /\
  candidates s' = candidates s /\ lexicon s' = lexicon s /\
  (board s' = board s \/ exists bd, board s' = board s ++ [bd]) /\
  (consistent s -> consistent s').
Proof.
  intro s'. pose proof (check_word_untouched guess s) as Hu. fold s' in Hu.
  split; [exact Hu |].
  destruct Hu as (_ & Hst & Hf & Hfi & _).
  split; [unfold candidates; now rewrite Hst, Hfi |].
  split; [unfold lexicon; now rewrite Hst, Hf |].
  split; [apply check_word_board | apply check_word_consistent].
Qed.

Lemma eqb_word_letters (u v : word) :
  length u = length v ->
  (forall j, j < length v -> letter u j = letter v j) -> u = v.
Proof.
  intros Hl H. apply (nth_ext u v zero zero Hl).
  intros n Hn. apply H. lia.
Qed.

Lemma mark_green_iff ans g t : mark ans g t = green_square <-> g = t.
Proof.
  split; [| apply mark_green]. unfold mark.
  destruct (Ascii.eqb g t) eqn:E; [intros _; now apply Ascii.eqb_eq |].
  destruct (mem g ans); discriminate.
Qed.

(** X6. On a session not yet solved and a guess as long as the answer,
    the line [check_word] adds to the board is green at every position
    exactly when the guess is the answer, that is, exactly when
    [is_solved] answers true for it. *)
Theorem board_line_green_iff_solved (s : Wordle) (guess : word) :
  solved s = false ->
  length guess = length (answer s) ->
  exists bd s',
    check_word guess s = Ok tt s' /\
    board s' = board s ++ [bd] /\
    (Forall (fun x => x = green_square) bd <-> guess = answer s) /\
    (is_solved guess s' = Ok true s' <-> guess = answer s).
Proof.
  intros Hs Hl.
  set (n := length (answer s)).
  exists (marks (answer s) guess (seq 0 n)). eexists.
  split; [apply check_word_ok; [exact Hs | lia] |].
  cbn [board set_board].
  destruct (absorb_all_fields guess (seq 0 n) s)
    as (Ha & _ & _ & _ & _ & _ & _ & Hb).
  fold n. rewrite Hb. split; [reflexivity |]. split.
  - unfold marks. rewrite Forall_map, Forall_forall. split.
    + intro H. apply eqb_word_letters; [exact Hl |].
      intros j Hj. apply (mark_green_iff (answer s)). apply H.
      now apply in_seq0.
    + intros -> j _. now apply mark_green.
  - unfold is_solved, bind, get, ret. cbn [answer set_board]. fold n.
    rewrite Ha. split.
    + intros [= H]. now apply eqb_word_eq.
    + intros ->. now rewrite eqb_word_refl.
Qed.

Lemma board_line_green_iff_solved_witness :
  exists bd s',
    check_word (w "tight") fight = Ok tt s' /\
    board s' = board fight ++ [bd] /\
    (Forall (fun x => x = green_square) bd <-> w "tight" = answer fight) /\
    (is_solved (w "tight") s' = Ok true s' <-> w "tight" = answer fight).
Proof.
  apply (board_line_green_iff_solved fight (w "tight")); reflexivity.
Defined.

(** ** Printing *)

Lemma forM_raise {A : Type} (f : A -> M unit) (s : Wordle) (e : exn)
    (l1 : list A) (x : A) (l2 : list A) :
  (forall y, In y l1 -> f y s = Ok tt s) ->
  f x s = Raise e s ->
  forM_ (l1 ++ x :: l2) f s = Raise e s.
Proof.
  induction l1 as [| y l1 IH]; intros H1 Hx; simpl.
  - unfold bind. now rewrite Hx.
  - unfold bind. rewrite (H1 y (or_introl eq_refl)).
    apply IH; [| exact Hx]. intros z Hz. apply H1. now right.
Qed.

(** X7. [print_state] prints one line per board line and reads the guess
    of the same rank: it returns, leaving the session as it was, when
    there are at least as many guesses as board lines, and raises
    [IndexError] when the board is longer than the list of guesses
    (which [check_word] called without [make_guess] brings about). *)
Theorem print_state_cases (s : Wordle) :
  (length (board s) <= length (guesses s) -> print_state s = Ok tt s) /\
  (length (guesses s) < length (board s) ->
     print_state s = Raise IndexError s).
Proof.
  split; intro H; unfold print_state, bind, get.
  - apply forM_pure. intros i Hi. apply in_seq0 in Hi. unfold index.
    destruct (nth_error (board s) i) eqn:E1;
      [| apply nth_error_None in E1; lia].
    destruct (nth_error (guesses s) i) eqn:E2;
      [| apply nth_error_None in E2; lia].
    reflexivity.
  - replace (length (board s))
      with (length (guesses s) + S (length (board s) - S (length (guesses s))))
      by lia.
    rewrite seq_app. simpl. apply forM_raise.
    + intros i Hi. apply in_seq0 in Hi. unfold index.
      destruct (nth_error (board s) i) eqn:E1;
        [| apply nth_error_None in E1; lia].
      destruct (nth_error (guesses s) i) eqn:E2;
        [| apply nth_error_None in E2; lia].
      reflexivity.
    + unfold index.
      destruct (nth_error (board s) (length (guesses s))) eqn:E1;
        [| apply nth_error_None in E1; lia].
      simpl.
      now replace (nth_error (guesses s) (length (guesses s)))
        with (@None word) by (symmetry; now apply nth_error_None).
Qed.

(** ** The candidate filter, however it ends *)

Lemma dict_comp_val (p : word -> res bool) (d : dict) : forall d',
  dict_comp p d = Val d' ->
  incl d' d /\ length d' <= length d /\
  (forall u v, In (u, v) d -> p u = Val true -> In (u, v) d').
Proof.
  induction d as [| [u v] d IH]; intros d' H; simpl in H.
  - injection H as <-. repeat split; [apply incl_refl | lia | tauto].
  - destruct (p u) as [b | e] eqn:Ep; simpl in H; [| discriminate].
    destruct (dict_comp p d) as [r | e] eqn:Er; simpl in H; [| discriminate].
    injection H as <-. destruct (IH r eq_refl) as (Hi & Hl & Hk).
    destruct b.
    + split; [| split].
      * intros x [<- | Hx]; [now left | right; now apply Hi].
      * simpl. lia.
      * intros u' v' [[= <- <-] | Hin] Hp; [now left | right; now apply Hk].
    + split; [| split].
      * intros x Hx. right. now apply Hi.
      * simpl. lia.
      * intros u' v' [[= <- <-] | Hin] Hp; [congruence | now apply Hk].
Qed.

Lemma refilter_eq p s :
  refilter p s =
  match dict_comp p (candidates s) with
  | Val d => Ok tt (set_filtered (length (store s))
                      (set_store (store s ++ [d]) s))
  | Exn e => Raise e s
  end.
Proof.
  unfold refilter, bind, get, lift.
  destruct (dict_comp p (candidates s)); reflexivity.
Qed.

Lemma candidates_alloc s d :
  candidates (set_filtered (length (store s)) (set_store (store s ++ [d]) s))
  = d.
Proof. apply deref_alloc. Qed.

Lemma narrows_alloc s d :
  incl d (candidates s) -> length d <= length (candidates s) ->
  narrows s (set_filtered (length (store s)) (set_store (store s ++ [d]) s)).
Proof.
  intros Hi Hl. unfold narrows. rewrite candidates_alloc.
  repeat split; trivial. now exists [d].
Qed.

Lemma refilter_narrows p : frame narrows (refilter p).
Proof.
  intro s. rewrite refilter_eq.
  destruct (dict_comp p (candidates s)) as [d | e] eqn:E; simpl.
  - destruct (dict_comp_val p _ d E) as (Hi & Hl & _).
    now apply narrows_alloc.
  - apply narrows_refl.
Qed.

Lemma filter_possible_narrows : frame narrows filter_possible.
Proof.
  unfold filter_possible. frame_walk narrows_refl narrows_trans;
    apply refilter_narrows.
Qed.

(** X8. However [filter_possible] ends, and whatever the constraints and
    the lexicon are, it only narrows: every entry of the candidate
    dictionary afterwards, word and score, was an entry before, so there
    are no more of them; the constraints, the guesses, the board, the
    flags, the answer and the reference [self.freq] are as before, and
    the dictionaries already in the store are unchanged. *)
Theorem filter_possible_never_widens (s : Wordle) :
  let s' := final (filter_possible s) in
  incl (candidates s') (candidates s) /\
  length (candidates s') <= length (candidates s) /\
  equals s' = equals s /\ contains s' = contains s /\
  not_in s' = not_in s /\
  guesses s' = guesses s /\ board s' = board s /\
  played s' = played s /\ solved s' = solved s /\
  answer s' = answer s /\ freq s' = freq s /\
  exists ext, store s' = store s ++ ext.
Proof.
  intro s'.
  destruct (filter_possible_narrows s)
    as ((Ha & Hf & He) & N1 & N2 & N3 & N4 & N5 & N6 & N7 & N8 & N9).
  fold s' in Ha, Hf, He, N1, N2, N3, N4, N5, N6, N7, N8, N9.
  repeat split; assumption.
Qed.

(** ** The candidate filter on words that can be indexed *)

Lemma filter_filter {A : Type} (f g : A -> bool) (l : list A) :
  filter g (filter f l) = filter (fun x => f x && g x) l.
Proof.
  induction l as [| x l IH]; simpl; [reflexivity |].
  destruct (f x); simpl; [destruct (g x) |]; now rewrite IH.
Qed.

Lemma filter_true {A : Type} (l : list A) : filter (fun _ => true) l = l.
Proof. induction l as [| x l IH]; simpl; [reflexivity | now rewrite IH]. Qed.

Lemma refines_incl q s s' :
  refines q s s' -> incl (candidates s') (candidates s).
Proof. intros (_ & ->). apply incl_filter. Qed.

Lemma refines_trans q1 q2 s1 s2 s3 :
  refines q1 s1 s2 -> refines q2 s2 s3 ->
  refines (fun u => q1 u && q2 u) s1 s3.
Proof.
  intros (N1 & E1) (N2 & E2). split; [exact (narrows_trans _ _ _ N1 N2) |].
  rewrite E2, E1. apply filter_filter.
Qed.

Lemma refilter_refines (p : word -> res bool) (pb : word -> bool) s :
  (forall u v, In (u, v) (candidates s) -> p u = Val (pb u)) ->
  exists s', refilter p s = Ok tt s' /\ refines pb s s'.
Proof.
  intro Hp. rewrite refilter_eq, (dict_comp_filter p pb _ Hp).
  eexists. split; [reflexivity |]. split.
  - apply narrows_alloc; [apply incl_filter | apply filter_length_le].
  - apply candidates_alloc.
Qed.

Lemma forM_refines {A : Type} (D : dict) (l : list A) (f : A -> M unit)
    (pb : A -> word -> bool) :
  (forall x s, In x l -> incl (candidates s) D ->
     exists s', f x s = Ok tt s' /\ refines (pb x) s s') ->
  forall s, incl (candidates s) D ->
    exists s', forM_ l f s = Ok tt s' /\
               refines (fun u => forallb (fun x => pb x u) l) s s'.
Proof.
  induction l as [| x l IH]; intros Hf s Hs; simpl.
  - exists s. split; [reflexivity |]. split; [apply narrows_refl |].
    now rewrite filter_true.
  - destruct (Hf x s (or_introl eq_refl) Hs) as (s1 & E1 & R1).
    assert (Hs1 : incl (candidates s1) D)
      by (eapply incl_tran; [exact (refines_incl _ _ _ R1) | exact Hs]).
    destruct (IH (fun y t Hy => Hf y t (or_intror Hy)) s1 Hs1)
      as (s2 & E2 & R2).
    exists s2. split; [unfold bind; now rewrite E1 |].
    exact (refines_trans _ _ _ _ _ R1 R2).
Qed.

Lemma filter_possible_refines s :
  long_enough s ->
  exists s', filter_possible s = Ok tt s' /\ refines (accepts s) s s'.
Proof.
  intro Hlong. set (D := candidates s).
  destruct (forM_refines D (equals s)
              (fun kc => refilter (keep_equal (fst kc) (snd kc)))
              (fun kc u => fits_equal u kc))
    with (s := s) as (s1 & E1 & R1); [| apply incl_refl |].
  { intros [k c] t Hkc Ht. apply refilter_refines.
    intros u v Huv. unfold fits_equal. simpl.
    apply keep_equal_total.
    destruct (Hlong u v (Ht _ Huv)) as [He _]. exact (He k c Hkc). }
  assert (H1 : incl (candidates s1) D) by exact (refines_incl _ _ _ R1).
  destruct (forM_refines D (contains s)
              (fun kl => forM_ (snd kl)
                 (fun c => refilter (keep_misplaced (fst kl) c)))
              (fun kl u => forallb (fits_misplaced u (fst kl)) (snd kl)))
    with (s := s1) as (s2 & E2 & R2); [| exact H1 |].
  { intros [k l] t Hkl Ht. simpl.
    apply (forM_refines D l (fun c => refilter (keep_misplaced k c))
             (fun c u => fits_misplaced u k c)); [| exact Ht].
    intros c t' Hcl Ht'. apply refilter_refines.
    intros u v Huv. unfold fits_misplaced.
    apply keep_misplaced_total.
    destruct (Hlong u v (Ht' _ Huv)) as [_ Hc]. apply (Hc k l Hkl).
    intros ->. destruct Hcl. }
  assert (H2 : incl (candidates s2) D)
    by (eapply incl_tran; [exact (refines_incl _ _ _ R2) | exact H1]).
  destruct (forM_refines D (not_in s)
              (fun c => refilter (keep_without c))
              (fun c u => negb (mem c u)))
    with (s := s2) as (s3 & E3 & R3); [| exact H2 |].
  { intros c t _ Ht. apply refilter_refines. intros u v _. reflexivity. }
  exists s3. split.
  - unfold filter_possible, bind at 1, get.
    unfold bind at 1. rewrite E1. unfold bind at 1. rewrite E2. exact E3.
  - pose proof (refines_trans _ _ _ _ _ (refines_trans _ _ _ _ _ R1 R2) R3)
      as R.
    exact R.
Qed.

(** X9. When every candidate can be indexed at every position the
    constraints name, [filter_possible] returns, and the candidate
    dictionary it leaves consists of exactly the former entries, in the
    same order and with the same scores, whose word has the fixed letter
    at each position of [self.equals], contains each letter recorded in
    [self.contains] but not at the position it is recorded for, and
    contains no letter of [self.not_in]. *)
Theorem filter_possible_keeps_accepted (s : Wordle) :
  long_enough s ->
  exists s',
    filter_possible s = Ok tt s' /\
    candidates s' = filter (fun wv => accepts s (fst wv)) (candidates s) /\
    forall u v, In (u, v) (candidates s') <->
      In (u, v) (candidates s) /\
      (forall k c, In (k, c) (equals s) -> letter u k = c) /\
      (forall k l c, In (k, l) (contains s) -> In c l ->
                     In c u /\ letter u k <> c) /\
      (forall c, In c (not_in s) -> ~ In c u).
Proof.
  intro Hl. destruct (filter_possible_refines s Hl) as (s' & E & _ & Hc).
  exists s'. split; [exact E |]. split; [exact Hc |].
  intros u v. rewrite Hc, filter_In. simpl. unfold accepts.
  rewrite !andb_true_iff, !forallb_forall.
  split; intros (Hin & H); (split; [exact Hin |]).
  - destruct H as ((H1 & H2) & H3). split; [| split].
    + intros k c Hkc. specialize (H1 _ Hkc). unfold fits_equal in H1.
      now apply Ascii.eqb_eq in H1.
    + intros k l c Hkl Hcl. specialize (H2 _ Hkl).
      rewrite forallb_forall in H2. specialize (H2 _ Hcl).
      unfold fits_misplaced in H2. simpl in H2.
      apply andb_true_iff in H2. destruct H2 as [Hm Hn].
      split; [now apply mem_In |].
      apply negb_true_iff in Hn. now apply Ascii.eqb_neq.
    + intros c Hc'. specialize (H3 _ Hc'). apply negb_true_iff in H3.
      now apply mem_not_In.
  - destruct H as (H1 & H2 & H3). split; [split |].
    + intros [k c] Hkc. unfold fits_equal. simpl.
      apply Ascii.eqb_eq. now apply H1.
    + intros [k l] Hkl. rewrite forallb_forall. intros c Hcl.
      destruct (H2 k l c Hkl Hcl) as [Hm Hn]. unfold fits_misplaced. simpl.
      apply andb_true_iff. split; [now apply mem_In |].
      apply negb_true_iff. now apply Ascii.eqb_neq.
    + intros c Hc'. apply negb_true_iff. apply mem_not_In. now apply H3.
Qed.

Lemma long_enoughb_sound s : long_enoughb s = true -> long_enough s.
Proof.
  unfold long_enoughb, long_enough. intros H u v Huv.
  rewrite forallb_forall in H. specialize (H _ Huv). simpl in H.
  apply andb_true_iff in H. destruct H as [H1 H2].
  rewrite forallb_forall in H1, H2. split.
  - intros k c Hkc. specialize (H1 _ Hkc). now apply Nat.ltb_lt in H1.
  - intros k l Hkl _. specialize (H2 _ Hkl). now apply Nat.ltb_lt in H2.
Qed.

Lemma filter_possible_keeps_accepted_witness :
  exists s',
    filter_possible fight_tight = Ok tt s' /\
    candidates s' =
      filter (fun wv => accepts fight_tight (fst wv))
             (candidates fight_tight) /\
    forall u v, In (u, v) (candidates s') <->
      In (u, v) (candidates fight_tight) /\
      (forall k c, In (k, c) (equals fight_tight) -> letter u k = c) /\
      (forall k l c, In (k, l) (contains fight_tight) -> In c l ->
                     In c u /\ letter u k <> c) /\
      (forall c, In c (not_in fight_tight) -> ~ In c u).
Proof.
  apply (filter_possible_keeps_accepted fight_tight).
  apply long_enoughb_sound. reflexivity.
Defined.

(** X10. Filtering twice is filtering once: when every candidate can be
    indexed at every position the constraints name, a second
    [filter_possible] right after the first returns as well and leaves
    the same candidate dictionary, entry for entry. *)
Theorem filter_possible_idempotent (s : Wordle) :
  long_enough s ->
  exists s1 s2,
    filter_possible s = Ok tt s1 /\
    filter_possible s1 = Ok tt s2 /\
    candidates s2 = candidates s1.
Proof.
  intro Hl.
  destruct (filter_possible_refines s Hl) as (s1 & E1 & N1 & C1).
  destruct N1 as (_ & _ & _ & Nn & Nc & Ne & _ & _ & Ni & _).
  assert (Hl1 : long_enough s1).
  { intros u v Huv. rewrite Ne, Nc. apply (Hl u v). now apply Ni. }
  destruct (filter_possible_refines s1 Hl1) as (s2 & E2 & _ & C2).
  exists s1, s2. split; [exact E1 |]. split; [exact E2 |].
  rewrite C2, C1, filter_filter. apply filter_ext.
  intros [u v]. simpl. unfold accepts. rewrite Ne, Nc, Nn.
  apply andb_diag.
Qed.

Lemma filter_possible_idempotent_witness :
  exists s1 s2,
    filter_possible fight_tight = Ok tt s1 /\
    filter_possible s1 = Ok tt s2 /\
    candidates s2 = candidates s1.
Proof.
  apply (filter_possible_idempotent fight_tight).
  apply long_enoughb_sound. reflexivity.
Defined.

Lemma dict_comp_raises (p : word -> res bool) (e : exn) (d : dict) :
  (forall u, (exists b, p u = Val b) \/ p u = Exn e) ->
  (exists u v, In (u, v) d /\ p u = Exn e) ->
  dict_comp p d = Exn e.
Proof.
  intros Hp. induction d as [| [u v] d IH]; intros (u' & v' & Hin & He).
  - destruct Hin.
  - simpl. destruct (Hp u) as [(b & Eb) | Eb]; rewrite Eb; simpl;
      [| reflexivity].
    destruct Hin as [[= -> ->] | Hin]; [congruence |].
    rewrite IH; [reflexivity | now exists u', v'].
Qed.

(** X11. The comprehensions index every candidate word at the recorded
    positions without looking at its length: if some candidate is too
    short for the position of the first entry of [self.equals],
    [filter_possible] raises [IndexError] in its first comprehension and
    leaves the session, candidates included, exactly as it was. *)
Theorem filter_possible_short_word (s : Wordle) (k : nat) (c : ascii)
    (rest : list (nat * ascii)) :
  equals s = (k, c) :: rest ->
  (exists u v, In (u, v) (candidates s) /\ length u <= k) ->
  filter_possible s = Raise IndexError s.
Proof.
  intros He (u & v & Hin & Hu).
  unfold filter_possible, bind at 1, get. rewrite He. simpl forM_.
  unfold bind. rewrite refilter_eq, (dict_comp_raises _ IndexError).
  - reflexivity.
  - intro x. unfold keep_equal, index. simpl.
    destruct (nth_error x k); [left; eexists; reflexivity | now right].
  - exists u, v. split; [exact Hin |].
    unfold keep_equal. simpl. now rewrite index_out.
Qed.

Lemma filter_possible_short_word_witness :
  filter_possible ragged_fight = Raise IndexError ragged_fight.
Proof.
  apply (filter_possible_short_word ragged_fight 4 "t"%char []).
  - reflexivity.
  - exists (w "fig"), 3%Q. split; [right; now left | simpl; lia].
Defined.

(** ** Progress of the rounds *)

Lemma wrong_letter (g : word) : forall ans : word,
  length g = length ans -> g <> ans ->
  exists j, j < length ans /\ letter g j <> letter ans j.
Proof.
  induction g as [| a g IH]; intros [| b ans] Hl Hne; simpl in Hl;
    try discriminate; [congruence |].
  destruct (ascii_dec a b) as [-> | Hab].
  - destruct (IH ans) as (j & Hj & Hd); [lia | congruence |].
    exists (S j). split; [simpl; lia | exact Hd].
  - exists 0. split; [simpl; lia | exact Hab].
Qed.

Lemma forallb_false {A : Type} (f : A -> bool) (l : list A) (x : A) :
  In x l -> f x = false -> forallb f l = false.
Proof.
  intros Hin Hf. destruct (forallb f l) eqn:E; [| reflexivity].
  rewrite forallb_forall in E. rewrite (E x Hin) in Hf. discriminate.
Qed.

Lemma filter_length_lt {A : Type} (f : A -> bool) (l : list A) (x : A) :
  In x l -> f x = false -> length (filter f l) < length l.
Proof.
  induction l as [| y l IH]; intros Hin Hf; [destruct Hin |].
  simpl. destruct Hin as [-> | Hin].
  - rewrite Hf. pose proof (filter_length_le f l). lia.
  - specialize (IH Hin Hf). destruct (f y); simpl; lia.
Qed.

Lemma incl_keys (d d' : dict) : incl d' d -> incl (keys d') (keys d).
Proof.
  intros H u Hu. apply In_keys in Hu. destruct Hu as (v & Hv).
  apply In_keys. exists v. now apply H.
Qed.

(** The state [check_word] leaves rejects the guess it has just
    evaluated, unless that guess is the answer. *)
Lemma rejected_after_check g s :
  length g = length (answer s) -> g <> answer s ->
  accepts (absorb_all g (seq 0 (length (answer s))) s) g = false.
Proof.
  intros Hl Hne. set (n := length (answer s)).
  destruct (wrong_letter g (answer s) Hl Hne) as (j & Hj & Hd).
  assert (Hin : In j (seq 0 n)) by now apply in_seq0.
  pose proof (seq_NoDup n 0) as Hnd.
  assert (Hgj : In (letter g j) g)
    by (unfold letter; apply nth_In; lia).
  unfold accepts.
  destruct (mark (answer s) (letter g j) (letter (answer s) j)) eqn:Em.
  - apply mark_green_iff in Em. contradiction.
  - pose proof (contains_recorded g (seq 0 n) s j Hnd Hin Em) as Hc.
    apply dict_get_In in Hc.
    rewrite (forallb_false _ _ _ Hc); [now rewrite andb_false_r |].
    simpl. apply forallb_false with (x := letter g j).
    + apply in_or_app. right. now left.
    + unfold fits_misplaced. rewrite Ascii.eqb_refl. apply andb_false_r.
  - assert (Hn : In (letter g j)
                    (not_in (absorb_all g (seq 0 n) s))).
    { rewrite not_in_recorded. apply in_or_app. right.
      now apply In_absent_letters. }
    rewrite (forallb_false _ _ _ Hn); [apply andb_false_r |].
    apply mem_In in Hgj. now rewrite Hgj.
Qed.

Lemma round_eliminates r s g s' :
  in_progress s ->
  round r s = Ok g s' ->
  g <> answer s ->
  ~ In g (keys (candidates s')) /\
  length (candidates s') < length (candidates s).
Proof.
  intros (Hs & Hc & Hin & Hwf & Hh) Hr Hne.
  destruct (make_guess_ok r s) as (g0 & Eg & Hg).
  { intro E. rewrite E in Hin. destruct Hin. }
  { intros u v Huv. now apply (Hwf u v). }
  set (sa := set_guesses (guesses s ++ [g0]) s) in Eg.
  assert (Hlg : length g0 = length (answer s)).
  { apply In_keys in Hg. destruct Hg as (v & Hv). now apply (Hwf g0 v). }
  assert (Hsa : solved sa = false) by exact Hs.
  assert (Hla : length (answer sa) <= length g0) by (simpl; lia).
  pose proof (check_word_ok g0 sa Hsa Hla) as Eb. cbv zeta in Eb.
  change (answer sa) with (answer s) in Eb.
  set (n := length (answer s)) in *.
  set (s1 := absorb_all g0 (seq 0 n) sa) in *.
  set (sb := set_board _ s1) in Eb.
  destruct (absorb_all_fields g0 (seq 0 n) sa)
    as (Fa & Fst & _ & _ & _ & Ffi & _ & _).
  fold s1 in Fa, Fst, Ffi.
  assert (Hcb : candidates sb = candidates s)
    by (unfold candidates; cbn [store filtered sb set_board];
        now rewrite Fst, Ffi).
  assert (Hconb : consistent sb).
  { apply (absorb_all_consistent g0 (seq 0 n) sa); [| exact Hc].
    intros j Hj. now apply in_seq0. }
  assert (Hlong : long_enough sb).
  { intros u v Huv. rewrite Hcb in Huv.
    destruct (Hwf u v Huv) as [Hu _]. fold n in Hu.
    destruct Hconb as (He & Hco & _).
    cbn [answer sb set_board] in He, Hco. rewrite Fa in He, Hco.
    change (answer sa) with (answer s) in He, Hco. split.
    - intros k c Hkc. specialize (He k c Hkc).
      rewrite Hu. apply nth_error_Some. congruence.
    - intros k l Hkl Hl.
      destruct l as [| c l']; [congruence |].
      destruct (Hco k (c :: l') c Hkl (or_introl eq_refl))
        as (_ & t & Ht & _).
      rewrite Hu. apply nth_error_Some. congruence. }
  destruct (filter_possible_refines sb Hlong) as (sc & Ec & _ & Cc).
  assert (Er : round r s = Ok g0 sc)
    by (unfold round, bind; rewrite Eg, Eb, Ec; reflexivity).
  rewrite Er in Hr. injection Hr as <- <-.
  assert (Hrej : accepts sb g0 = false).
  { apply (rejected_after_check g0 sa); [exact Hlg | exact Hne]. }
  rewrite Cc, Hcb. apply In_keys in Hg. destruct Hg as (v & Hv). split.
  - intro Hk. apply In_keys in Hk. destruct Hk as (v' & Hv').
    apply filter_In in Hv'. simpl in Hv'. destruct Hv' as [_ Hv'].
    congruence.
  - apply filter_length_lt with (x := (g0, v)); [exact Hv | exact Hrej].
Qed.

(** X12. In a game under way every round returns, guesses one of the
    candidates, and, unless that guess is the answer, removes it from the
    candidate dictionary, which so becomes strictly shorter, while the
    answer stays in it. *)
Theorem wrong_guess_eliminated (r : nat) (s : Wordle) :
  in_progress s ->
  exists g s',
    round r s = Ok g s' /\
    In g (keys (candidates s)) /\
    In (answer s) (keys (candidates s')) /\
    (g <> answer s ->
       ~ In g (keys (candidates s')) /\
       length (candidates s') < length (candidates s)).
Proof.
  intro Hip.
  destruct (round_ok r s Hip)
    as (g & s' & E & Hg & _ & _ & _ & _ & Hin & _).
  exists g, s'. split; [exact E |]. split; [exact Hg |].
  split; [exact Hin |]. intro Hne.
  exact (round_eliminates r s g s' Hip E Hne).
Qed.

Lemma wrong_guess_eliminated_witness :
  exists g s',
    round 3 fight = Ok g s' /\
    In g (keys (candidates fight)) /\
    In (answer fight) (keys (candidates s')) /\
    (g <> answer fight ->
       ~ In g (keys (candidates s')) /\
       length (candidates s') < length (candidates fight)).
Proof.
  apply (wrong_guess_eliminated 3 fight).
  apply fresh_in_progress; [repeat split |].
  apply well_formedb_sound. reflexivity.
Defined.

Lemma NoDup_snoc {A : Type} (l : list A) (x : A) :
  NoDup l -> ~ In x l -> NoDup (l ++ [x]).
Proof.
  induction l as [| y l IH]; intros Hnd Hx; simpl.
  - constructor; [intros [] | constructor].
  - inversion Hnd as [| ? ? Hy Hnd']; subst. constructor.
    + intro H. apply in_app_or in H. destruct H as [H | [-> | []]].
      * now apply Hy.
      * apply Hx. now left.
    + apply IH; [exact Hnd' |]. intro H. apply Hx. now right.
Qed.

(** The two ways a turn of the loop of [play] continues after a round
    that returned. *)
Lemma play_rounds_after_round rs i n s g s1 :
  round (rs i) s = Ok g s1 ->
  answer s1 = answer s ->
  play_rounds rs i (S n) s =
  if eqb_word g (answer s) then Ok tt (set_solved true s1)
  else play_rounds rs (S i) n s1.
Proof.
  intros E A. rewrite play_rounds_S. unfold bind at 1. rewrite E.
  unfold bind at 1.
  change (is_solved g s1) with (Ok (eqb_word g (answer s1)) s1).
  cbv beta iota. rewrite A. destruct (eqb_word g (answer s)); reflexivity.
Qed.

Lemma play_rounds_nodup rs n : forall i s s',
  in_progress s ->
  NoDup (guesses s) ->
  (forall g, In g (guesses s) -> ~ In g (keys (candidates s))) ->
  play_rounds rs i n s = Ok tt s' ->
  NoDup (guesses s').
Proof.
  induction n as [| n IH]; intros i s s' Hip Hnd Hout H.
  - simpl in H. unfold ret in H. now injection H as <-.
  - destruct (round_ok (rs i) s Hip)
      as (g & s1 & E1 & Hg & G1 & A1 & _ & _ & _ & Inc1 & _ & Hip1).
    rewrite (play_rounds_after_round rs i n s g s1 E1 A1) in H.
    assert (Hnd1 : NoDup (guesses s1)).
    { rewrite G1. apply NoDup_snoc; [exact Hnd |].
      intro Hin. now apply (Hout g Hin). }
    destruct (eqb_word g (answer s)) eqn:Eb.
    + injection H as <-. exact Hnd1.
    + apply (IH (S i) s1 s' Hip1 Hnd1); [| exact H].
      assert (Hne : g <> answer s).
      { intros ->. now rewrite eqb_word_refl in Eb. }
      intros g' Hg'. rewrite G1 in Hg'. apply in_app_or in Hg'.
      destruct Hg' as [Hg' | [<- | []]].
      * intro Hk. apply (Hout g' Hg'). now apply (incl_keys _ _ Inc1).
      * apply (round_eliminates (rs i) s g s1 Hip E1 Hne).
Qed.

Lemma play_rounds_solves rs n : forall i s s',
  in_progress s ->
  length (candidates s) <= n ->
  play_rounds rs i n s = Ok tt s' ->
  solved s' = true.
Proof.
  induction n as [| n IH]; intros i s s' Hip Hl H.
  - exfalso. destruct Hip as (_ & _ & Hin & _).
    destruct (candidates s); [destruct Hin | simpl in Hl; lia].
  - destruct (round_ok (rs i) s Hip)
      as (g & s1 & E1 & Hg & G1 & A1 & _ & _ & _ & Inc1 & _ & Hip1).
    rewrite (play_rounds_after_round rs i n s g s1 E1 A1) in H.
    destruct (eqb_word g (answer s)) eqn:Eb.
    + now injection H as <-.
    + apply (IH (S i) s1 s' Hip1); [| exact H].
      assert (Hne : g <> answer s).
      { intros ->. now rewrite eqb_word_refl in Eb. }
      destruct (round_eliminates (rs i) s g s1 Hip E1 Hne) as [_ Hlt].
      lia.
Qed.

(** How [play] runs on a well-formed session: the loop is entered in a
    state [s0] that is under way with no guess yet and the whole lexicon
    as candidates, it returns in a state [s1], and [play] returns the
    flag of [s1]. *)
Lemma play_run rs s :
  well_formed s -> ready s ->
  exists s0 s1,
    in_progress s0 /\ guesses s0 = [] /\
    candidates s0 = lexicon s /\ answer s0 = answer s /\
    play_rounds rs 0 6 s0 = Ok tt s1 /\
    play rs s = Ok (solved s1) (set_played true s1).
Proof.
  intros Hwf Hr.
  assert (H0 : exists s0, fresh s0 /\ well_formed s0 /\
                          candidates s0 = lexicon s /\
                          answer s0 = answer s /\
                          play rs s = play_fresh rs s0).
  { destruct (played s) eqn:Hp.
    - exists (final (reset_game s)). split; [repeat split |].
      split; [exact Hwf |]. split; [reflexivity |].
      split; [reflexivity |]. now apply play_played.
    - destruct Hr as [Hr | Hr]; [congruence |].
      exists s. split; [exact Hr |]. split; [exact Hwf |].
      split; [| split; [reflexivity | now apply play_unplayed]].
      destruct Hr as (_ & _ & Hf & _). unfold candidates, lexicon.
      now rewrite Hf. }
  destruct H0 as (s0 & Hfr & Hwf0 & Hc0 & Ha0 & Ep).
  pose proof (fresh_in_progress s0 Hfr Hwf0) as Hip.
  destruct (play_rounds_ok rs 6 0 s0 Hip)
    as (s1 & gs & E & _ & _ & _ & _ & Hh & _).
  exists s0, s1. split; [exact Hip |].
  split; [apply Hfr |]. split; [exact Hc0 |]. split; [exact Ha0 |].
  split; [exact E |]. rewrite Ep.
  unfold play_fresh, bind at 1. rewrite E.
  unfold bind at 1. rewrite (print_state_ok s1 Hh). reflexivity.
Qed.

(** X13. On a well-formed session that is fresh or has a finished game
    behind it, [play] never guesses the same word twice: the guesses of
    the game it plays are pairwise distinct. *)
Theorem play_never_repeats_guess (rs : nat -> nat) (s : Wordle) :
  well_formed s -> ready s ->
  exists b s', play rs s = Ok b s' /\ NoDup (guesses s').
Proof.
  intros Hwf Hr.
  destruct (play_run rs s Hwf Hr) as (s0 & s1 & Hip & Hg & _ & _ & E & Ep).
  exists (solved s1), (set_played true s1). split; [exact Ep |].
  cbn [guesses set_played].
  apply (play_rounds_nodup rs 6 0 s0 s1 Hip); [| | exact E];
    rewrite Hg; [constructor | intros g []].
Qed.

Lemma play_never_repeats_guess_witness :
  exists b s', play (fun i => 2 * i) fight = Ok b s' /\ NoDup (guesses s').
Proof.
  apply (play_never_repeats_guess (fun i => 2 * i) fight).
  - apply well_formedb_sound. reflexivity.
  - right. repeat split.
Defined.

(** X14. Over a well-formed lexicon of at most six words the game is
    always won: whatever the draws, [play] returns true and the answer is
    among the guesses. *)
Theorem play_small_lexicon_solved (rs : nat -> nat) (s : Wordle) :
  well_formed s -> ready s ->
  length (lexicon s) <= 6 ->
  exists s',
    play rs s = Ok true s' /\ solved s' = true /\
    In (answer s) (guesses s').
Proof.
  intros Hwf Hr Hl.
  destruct (play_run rs s Hwf Hr) as (s0 & s1 & Hip & Hg & Hc & Ha & E & Ep).
  assert (Hs : solved s1 = true).
  { apply (play_rounds_solves rs 6 0 s0 s1 Hip); [| exact E].
    now rewrite Hc. }
  exists (set_played true s1). rewrite Ep, Hs.
  split; [reflexivity |]. split; [exact Hs |].
  cbn [guesses set_played].
  destruct (play_rounds_ok rs 6 0 s0 Hip)
    as (s1' & gs & E' & _ & _ & _ & G & _ & _ & _ & Hcase).
  rewrite E in E'. injection E' as <-.
  destruct Hcase as [(_ & gs0 & -> & _) | ((Hs' & _) & _)]; [| congruence].
  rewrite G, <- Ha. apply in_or_app. right. apply in_or_app. right. now left.
Qed.

Lemma play_small_lexicon_solved_witness :
  exists s',
    play (fun _ => 0) fight3 = Ok true s' /\ solved s' = true /\
    In (answer fight3) (guesses s').
Proof.
  apply (play_small_lexicon_solved (fun _ => 0) fight3).
  - apply well_formedb_sound. reflexivity.
  - right. repeat split.
  - simpl. lia.
Defined.

(** ** A target the frequency table does not know *)

Lemma same_refl s : same s s.
Proof. reflexivity. Qed.

Lemma same_trans s1 s2 s3 : same s1 s2 -> same s2 s3 -> same s1 s3.
Proof. unfold same. congruence. Qed.

Lemma print_state_same : frame same print_state.
Proof. unfold print_state. frame_walk same_refl same_trans. Qed.

Lemma play_rounds_unsolved rs (L : dict) (a : word) n : forall i s s',
  (forall v, In (a, v) L -> (v == 0)%Q) ->
  solved s = false -> answer s = a -> incl (candidates s) L ->
  play_rounds rs i n s = Ok tt s' ->
  solved s' = false.
Proof.
  induction n as [| n IH]; intros i s s' HL Hs Ha Hi H.
  - simpl in H. unfold ret in H. now injection H as <-.
  - cbn [play_rounds] in H. unfold bind at 1 in H.
    destruct (make_guess (rs i) s) as [g s1 | e s1] eqn:Eg; [| discriminate].
    destruct (make_guess_inv _ _ _ _ Eg) as (-> & v & Hv & Hnz).
    assert (Hne : g <> a).
    { intros ->. apply Hnz. apply HL. now apply Hi. }
    unfold bind at 1 in H.
    pose proof (check_word_untouched g (set_guesses (guesses s ++ [g]) s))
      as Hu.
    destruct (check_word g _) as [[] s2 | e s2]; [| discriminate].
    cbn [final] in Hu. destruct Hu as (Ua & Ust & _ & Ufi & _ & Uso & _).
    cbn [answer store filtered solved set_guesses] in Ua, Ust, Ufi, Uso.
    unfold bind at 1 in H.
    pose proof (filter_possible_narrows s2) as Hn.
    destruct (filter_possible s2) as [[] s3 | e s3]; [| discriminate].
    cbn [final] in Hn.
    destruct Hn as ((Na & _) & _ & Nso & _ & _ & _ & _ & _ & Ni & _).
    unfold bind at 1 in H.
    change (is_solved g s3) with (Ok (eqb_word g (answer s3)) s3) in H.
    cbv beta iota in H.
    assert (Ha3 : answer s3 = a) by congruence.
    rewrite Ha3 in H.
    destruct (eqb_word g a) eqn:Eb;
      [apply eqb_word_eq in Eb; contradiction |].
    apply (IH (S i) s3 s' HL); trivial; [congruence |].
    intros x Hx. apply Hi. apply Ni in Hx.
    unfold candidates in *. now rewrite Ust, Ufi in Hx.
Qed.

Lemma play_fresh_unsolved rs s s' :
  (forall v, In (answer s, v) (candidates s) -> (v == 0)%Q) ->
  solved s = false ->
  play_fresh rs s <> Ok true s'.
Proof.
  intros HL Hs H. unfold play_fresh, bind at 1 in H.
  destruct (play_rounds rs 0 6 s) as [[] s1 | e s1] eqn:E; [| discriminate].
  pose proof (play_rounds_unsolved rs (candidates s) (answer s) 6 0 s s1
                HL Hs eq_refl (incl_refl _) E) as Hs1.
  unfold bind at 1 in H.
  pose proof (print_state_same s1) as Hp.
  destruct (print_state s1) as [[] s2 | e s2]; [| discriminate].
  cbn [final] in Hp. unfold same in Hp. subst s2.
  unfold bind, modify, get, ret in H. cbn [solved set_played] in H.
  rewrite Hs1 in H. discriminate.
Qed.

(** X15. A target whose score in the lexicon is zero is never found: on
    a session that is fresh or has a finished game behind it, whatever
    the draws, [play] does not return true (it returns false after six
    wrong guesses, or ends on the [ZeroDivisionError] of [make_guess]
    once only unknown words are left). *)
Theorem zero_score_target_never_solved (rs : nat -> nat) (s : Wordle) :
  ready s ->
  (forall v, In (answer s, v) (lexicon s) -> (v == 0)%Q) ->
  forall s', play rs s <> Ok true s'.
Proof.
  intros Hr Hz s'.
  destruct (played s) eqn:Hp.
  - rewrite (play_played rs s Hp). apply play_fresh_unsolved; [| reflexivity].
    exact Hz.
  - destruct Hr as [Hr | Hr]; [congruence |].
    rewrite (play_unplayed rs s Hp).
    destruct Hr as (_ & Hs & Hf & _).
    apply play_fresh_unsolved; [| exact Hs].
    unfold candidates. rewrite Hf. exact Hz.
Qed.

Lemma zero_score_target_never_solved_witness :
  play (fun _ => 0) fight0 = Ok false (final (play (fun _ => 0) fight0)) /\
  forall s', play (fun _ => 0) fight0 <> Ok true s'.
Proof.
  split; [vm_compute; reflexivity |].
  apply (zero_score_target_never_solved (fun _ => 0) fight0).
  - right. repeat split.
  - intros v Hin. simpl in Hin.
    repeat (destruct Hin as [Hin | Hin]; [discriminate Hin |]).
    destruct Hin as [Hin | []]. now injection Hin as <-.
Defined.

(** ** Any use of the object *)

Lemma keeps_sound_refl s : keeps_sound s s.
Proof. split; [apply grows_refl | trivial]. Qed.

Lemma keeps_sound_trans s1 s2 s3 :
  keeps_sound s1 s2 -> keeps_sound s2 s3 -> keeps_sound s1 s3.
Proof.
  intros [G1 H1] [G2 H2].
  split; [exact (grows_trans _ _ _ G1 G2) | auto].
Qed.

(** A step that changes neither the constraints nor the store nor the
    bindings of the two dictionaries. *)
Lemma keeps_sound_same s s' :
  answer s' = answer s -> store s' = store s -> freq s' = freq s ->
  filtered s' = filtered s -> equals s' = equals s ->
  contains s' = contains s -> not_in s' = not_in s ->
  keeps_sound s s'.
Proof.
  intros Ha Hst Hf Hfi He Hc Hn.
  split; [now apply grows_same_store |].
  unfold sound, consistent, candidates, lexicon.
  now rewrite Ha, Hst, Hf, Hfi, He, Hc, Hn.
Qed.

Ltac sound_walk :=
  frame_walk keeps_sound_refl keeps_sound_trans;
  try (apply keeps_sound_same; reflexivity).

Lemma reset_game_sound : frame keeps_sound reset_game.
Proof.
  unfold reset_game. frame_walk keeps_sound_refl keeps_sound_trans.
  split; [apply grows_same_store; reflexivity |].
  intros (_ & _ & _ & Hl & Hv).
  unfold sound, consistent, candidates, lexicon in *. simpl.
  split; [repeat split; intros; contradiction |].
  split; [exact Hl |]. split; [apply incl_refl |]. now split.
Qed.

Lemma return_total_moves_sound : frame keeps_sound return_total_moves.
Proof. unfold return_total_moves. sound_walk. Qed.

Lemma make_guess_sound r : frame keeps_sound (make_guess r).
Proof. unfold make_guess. sound_walk. Qed.

Lemma is_solved_sound guess : frame keeps_sound (is_solved guess).
Proof. unfold is_solved. sound_walk. Qed.

Lemma print_state_sound : frame keeps_sound print_state.
Proof. unfold print_state. sound_walk. Qed.

Lemma check_word_sound guess : frame keeps_sound (check_word guess).
Proof.
  intro s. split; [apply check_word_grows |].
  intros (Hc & Hin & Hi & Hl & Hv).
  destruct (check_word_untouched guess s) as (Ua & Ust & Uf & Ufi & _).
  pose proof (check_word_consistent guess s Hc) as Hc'.
  unfold sound, candidates, lexicon in *.
  rewrite Ua, Ust, Uf, Ufi.
  split; [exact Hc' |]. split; [exact Hin |]. split; [exact Hi |].
  split; assumption.
Qed.

Lemma preserves_forM {A : Type} (I : Wordle -> Prop) (l : list A)
    (f : A -> M unit) :
  (forall x, In x l -> preserves I (f x)) -> preserves I (forM_ l f).
Proof.
  induction l as [| x l IH]; intros Hf s Hs; simpl; [exact Hs |].
  unfold bind. pose proof (Hf x (or_introl eq_refl) s Hs) as H1.
  destruct (f x s) as [[] s1 | e s1]; simpl in *; [| exact H1].
  apply IH; [| exact H1]. intros y Hy. apply Hf. now right.
Qed.

Lemma preserves_bind {A B : Type} (I : Wordle -> Prop) (m : M A)
    (k : A -> M B) :
  preserves I m -> (forall a, preserves I (k a)) -> preserves I (bind m k).
Proof.
  intros Hm Hk s Hs. unfold bind. specialize (Hm s Hs).
  destruct (m s) as [a s1 | e s1]; simpl in *; [now apply Hk | exact Hm].
Qed.

Lemma refilter_keeps s0 p :
  p (answer s0) = Val true -> preserves (kept s0) (refilter p).
Proof.
  intros Hp t [Hn Hin]. rewrite refilter_eq.
  destruct (dict_comp p (candidates t)) as [d | e] eqn:E; simpl;
    [| now split].
  destruct (dict_comp_val p _ d E) as (Hi & Hl & Hk).
  split.
  - apply (narrows_trans _ _ _ Hn). now apply narrows_alloc.
  - rewrite candidates_alloc. apply In_keys in Hin. destruct Hin as (v & Hv).
    apply In_keys. exists v. now apply Hk.
Qed.

Lemma filter_possible_kept s :
  consistent s -> In (answer s) (keys (candidates s)) ->
  kept s (final (filter_possible s)).
Proof.
  intros (He & Hc & Hn) Hin.
  unfold filter_possible, bind at 1, get.
  apply preserves_bind; [| intros _; apply preserves_bind; [| intros _] |].
  - apply preserves_forM. intros [k c] Hkc. simpl.
    apply refilter_keeps. unfold keep_equal, index.
    rewrite (He k c Hkc). simpl. now rewrite Ascii.eqb_refl.
  - apply preserves_forM. intros [k l] Hkl. simpl.
    apply preserves_forM. intros c Hcl.
    destruct (Hc k l c Hkl Hcl) as (Hm & t & Ht & Hne).
    apply refilter_keeps. unfold keep_misplaced, index.
    rewrite Hm, Ht. simpl. apply Ascii.eqb_neq in Hne. now rewrite Hne.
  - apply preserves_forM. intros c Hc'.
    apply refilter_keeps. unfold keep_without. now rewrite (Hn c Hc').
  - split; [apply narrows_refl | exact Hin].
Qed.

Lemma filter_possible_sound : frame keeps_sound filter_possible.
Proof.
  intro s. split; [apply filter_possible_grows |].
  intros (Hc & Hin & Hi & Hl & Hv).
  destruct (filter_possible_kept s Hc Hin) as [Hn Hin'].
  set (s' := final (filter_possible s)) in *.
  destruct Hn as (G & _ & _ & Nn & Nc & Ne & _ & _ & Ni & _).
  assert (Ha : answer s' = answer s) by apply G.
  assert (Hlx : lexicon s' = lexicon s) by now apply grows_lexicon.
  unfold sound. rewrite Hlx, Ha.
  split; [unfold consistent; now rewrite Ha, Ne, Nc, Nn |].
  split; [exact Hin' |].
  split; [exact (incl_tran Ni Hi) |]. split; [exact Hl |].
  destruct G as (_ & Hf & ext & Hs). rewrite Hf, Hs, length_app. lia.
Qed.

Lemma play_rounds_sound rs n : forall i, frame keeps_sound (play_rounds rs i n).
Proof.
  induction n as [| n IH]; intro i; simpl.
  - sound_walk.
  - frame_walk keeps_sound_refl keeps_sound_trans;
      try apply make_guess_sound; try apply check_word_sound;
      try apply filter_possible_sound; try apply is_solved_sound;
      try apply IH; try (apply keeps_sound_same; reflexivity).
Qed.

Lemma play_sound rs : frame keeps_sound (play rs).
Proof.
  unfold play.
  frame_walk keeps_sound_refl keeps_sound_trans;
    try apply reset_game_sound; try apply play_rounds_sound;
    try apply print_state_sound; try (apply keeps_sound_same; reflexivity).
Qed.

Lemma run_call_sound c s : keeps_sound s (run_call c s).
Proof.
  destruct c; unfold run_call.
  - apply play_sound.
  - apply reset_game_sound.
  - apply return_total_moves_sound.
  - apply make_guess_sound.
  - apply check_word_sound.
  - apply is_solved_sound.
  - apply filter_possible_sound.
  - apply print_state_sound.
Qed.

Lemma run_calls_sound cs : forall s, keeps_sound s (run_calls cs s).
Proof.
  induction cs as [| c cs IH]; intro s; simpl.
  - apply keeps_sound_refl.
  - eapply keeps_sound_trans; [apply run_call_sound | apply IH].
Qed.

Lemma init_sound version ans d s0 :
  init version ans d = Val s0 -> sound s0 /\ answer s0 = ans /\ lexicon s0 = d.
Proof.
  intro Hi. apply init_inv in Hi. destruct Hi as (-> & _ & Hin).
  apply In_keys_exists in Hin.
  split; [| split; reflexivity].
  unfold sound, consistent, candidates, lexicon. simpl.
  split; [repeat split; intros; contradiction |].
  split; [exact Hin |]. split; [apply incl_refl |]. split; [exact Hin | lia].
Qed.

Lemma run_calls_from_init version ans d s0 cs :
  init version ans d = Val s0 ->
  sound (run_calls cs s0) /\ answer (run_calls cs s0) = ans /\
  lexicon (run_calls cs s0) = d.
Proof.
  intro Hi. destruct (init_sound version ans d s0 Hi) as (Hs & Ha & Hl).
  destruct (run_calls_sound cs s0) as [G K].
  split; [now apply K |].
  split; [destruct G as (-> & _); exact Ha |].
  rewrite (grows_lexicon _ _ G); [exact Hl | apply Hs].
Qed.

(** X16. From construction on, whatever methods are called, with
    whatever guesses, in whatever order and however they end, every
    recorded constraint is true of the answer: a letter fixed at a
    position is the answer's letter there, a letter recorded as misplaced
    at a position occurs in the answer but not there, and an excluded
    letter does not occur in the answer.  So no letter is ever both
    excluded and required. *)
Theorem constraints_always_truthful (version : string) (ans : word)
    (d : dict) (s0 : Wordle) (cs : list call) :
  init version ans d = Val s0 ->
  let s := run_calls cs s0 in
  answer s = ans /\
  (forall k c, In (k, c) (equals s) -> nth_error ans k = Some c) /\
  (forall k l c, In (k, l) (contains s) -> In c l ->
     In c ans /\ exists t, nth_error ans k = Some t /\ t <> c) /\
  (forall c, In c (not_in s) -> ~ In c ans) /\
  (forall c, In c (not_in s) ->
     (forall k, ~ In (k, c) (equals s)) /\
     (forall k l, In (k, l) (contains s) -> ~ In c l)).
Proof.
  intros Hi s.
  destruct (run_calls_from_init version ans d s0 cs Hi) as (Hs & Ha & _).
  fold s in Hs, Ha. destruct Hs as ((He & Hc & Hn) & _).
  rewrite Ha in He, Hc, Hn.
  assert (Hn' : forall c, In c (not_in s) -> ~ In c ans)
    by (intros c Hc'; apply mem_not_In; now apply Hn).
  split; [exact Ha |]. split; [exact He |]. split; [| split; [exact Hn' |]].
  - intros k l c Hkl Hcl. destruct (Hc k l c Hkl Hcl) as (Hm & Ht).
    split; [now apply mem_In | exact Ht].
  - intros c Hc'. split.
    + intros k Hk. apply (Hn' c Hc'). apply He in Hk.
      now apply nth_error_In in Hk.
    + intros k l Hkl Hcl. apply (Hn' c Hc').
      destruct (Hc k l c Hkl Hcl) as (Hm & _). now apply mem_In.
Qed.

Lemma constraints_always_truthful_witness :
  let cs := [CheckWord (w "thigh"); CheckWord (w "fi"); FilterPossible;
             Play (fun _ => 0); MakeGuess 1; CheckWord (w "sight")] in
  let s := run_calls cs fight in
  answer s = w "fight" /\
  (forall k c, In (k, c) (equals s) -> nth_error (w "fight") k = Some c) /\
  (forall k l c, In (k, l) (contains s) -> In c l ->
     In c (w "fight") /\
     exists t, nth_error (w "fight") k = Some t /\ t <> c) /\
  (forall c, In c (not_in s) -> ~ In c (w "fight")) /\
  (forall c, In c (not_in s) ->
     (forall k, ~ In (k, c) (equals s)) /\
     (forall k l, In (k, l) (contains s) -> ~ In c l)).
Proof.
  intro cs.
  apply (constraints_always_truthful "new" (w "fight") ight fight cs).
  reflexivity.
Defined.

(** X17. From construction on, whatever methods are called, with
    whatever guesses, in whatever order and however they end, the answer
    is a key of the candidate dictionary, which is therefore never empty,
    and every candidate entry is an entry of the lexicon. *)
Theorem answer_always_candidate (version : string) (ans : word)
    (d : dict) (s0 : Wordle) (cs : list call) :
  init version ans d = Val s0 ->
  let s := run_calls cs s0 in
  In ans (keys (candidates s)) /\
  candidates s <> [] /\
  incl (candidates s) d.
Proof.
  intros Hi s.
  destruct (run_calls_from_init version ans d s0 cs Hi) as (Hs & Ha & Hl).
  fold s in Hs, Ha, Hl. destruct Hs as (_ & Hin & Hinc & _).
  rewrite Ha in Hin. rewrite Hl in Hinc.
  split; [exact Hin |]. split; [| exact Hinc].
  intro E. rewrite E in Hin. destruct Hin.
Qed.

Lemma answer_always_candidate_witness :
  let cs := [CheckWord (w "thigh"); CheckWord (w "fi"); FilterPossible;
             Play (fun _ => 0); MakeGuess 1; CheckWord (w "sight");
             FilterPossible] in
  let s := run_calls cs fight in
  In (w "fight") (keys (candidates s)) /\
  candidates s <> [] /\
  incl (candidates s) ight.
Proof.
  intro cs. apply (answer_always_candidate "old" (w "fight") ight fight cs).
  reflexivity.
Defined.

(** ** The histories of a game *)

Lemma round_board r s g s' :
  in_progress s ->
  round r s = Ok g s' ->
  board s' = board s ++ [evaluate (answer s) g].
Proof.
  intros (Hs & _ & _ & Hwf & _) H.
  unfold round, bind at 1 in H.
  destruct (make_guess r s) as [g0 s1 | e s1] eqn:Eg; [| discriminate].
  destruct (make_guess_inv _ _ _ _ Eg) as (-> & v & Hv & _).
  destruct (Hwf g0 v Hv) as [Hl _].
  set (sa := set_guesses (guesses s ++ [g0]) s) in *.
  assert (Hsa : solved sa = false) by exact Hs.
  assert (Hla : length (answer sa) <= length g0) by (simpl; lia).
  unfold bind at 1 in H. rewrite (check_word_ok g0 sa Hsa Hla) in H.
  cbv zeta in H. change (answer sa) with (answer s) in H.
  set (sb := set_board _ _) in H.
  unfold bind at 1 in H.
  pose proof (filter_possible_narrows sb) as Hn.
  destruct (filter_possible sb) as [[] sc | e sc]; [| discriminate].
  unfold bind, ret in H. injection H as <- <-.
  cbn [final] in Hn. destruct Hn as (_ & _ & _ & _ & _ & _ & _ & -> & _).
  unfold sb. cbn [board set_board].
  destruct (absorb_all_fields g0 (seq 0 (length (answer s))) sa)
    as (_ & _ & _ & _ & _ & _ & _ & ->).
  reflexivity.
Qed.

Lemma play_rounds_history rs (L : dict) (a : word) n : forall i s s',
  in_progress s -> answer s = a ->
  incl (candidates s) L ->
  board s = map (evaluate a) (guesses s) ->
  (forall g, In g (guesses s) -> In g (keys L)) ->
  play_rounds rs i n s = Ok tt s' ->
  board s' = map (evaluate a) (guesses s') /\
  (forall g, In g (guesses s') -> In g (keys L)).
Proof.
  induction n as [| n IH]; intros i s s' Hip Ha Hi Hb Hg H.
  - simpl in H. unfold ret in H. injection H as <-. now split.
  - destruct (round_ok (rs i) s Hip)
      as (g & s1 & E1 & Hgc & G1 & A1 & _ & _ & _ & Inc1 & _ & Hip1).
    rewrite (play_rounds_after_round rs i n s g s1 E1 A1) in H.
    pose proof (round_board (rs i) s g s1 Hip E1) as B1.
    assert (Hb1 : board s1 = map (evaluate a) (guesses s1)).
    { rewrite B1, G1, map_app, Hb, Ha. reflexivity. }
    assert (Hg1 : forall g', In g' (guesses s1) -> In g' (keys L)).
    { intros g' Hg'. rewrite G1 in Hg'. apply in_app_or in Hg'.
      destruct Hg' as [Hg' | [<- | []]]; [now apply Hg |].
      now apply (incl_keys _ _ Hi). }
    destruct (eqb_word g (answer s)).
    + injection H as <-. now split.
    + apply (IH (S i) s1 s' Hip1); trivial; [congruence |].
      exact (incl_tran Inc1 Hi).
Qed.

(** X18. On a well-formed session that is fresh or has a finished game
    behind it, the two histories [play] leaves tell the same game: the
    board has one line per guess, the line of rank [i] being the
    evaluation of the guess of rank [i] against the answer (as many
    symbols as the answer has letters), and every guess is a word of the
    lexicon.  [self.played] is set. *)
Theorem play_histories_agree (rs : nat -> nat) (s : Wordle) :
  well_formed s -> ready s ->
  exists b s',
    play rs s = Ok b s' /\
    played s' = true /\
    board s' = map (evaluate (answer s)) (guesses s') /\
    length (board s') = length (guesses s') /\
    (forall bd, In bd (board s') -> length bd = length (answer s)) /\
    (forall g, In g (guesses s') -> In g (keys (lexicon s))).
Proof.
  intros Hwf Hr.
  destruct (play_run rs s Hwf Hr)
    as (s0 & s1 & Hip & Hg & Hc & Ha & E & Ep).
  exists (solved s1), (set_played true s1). split; [exact Ep |].
  cbn [played board guesses set_played]. split; [reflexivity |].
  destruct (play_rounds_history rs (lexicon s) (answer s) 6 0 s0 s1)
    as [Hb Hgs]; trivial.
  - rewrite Hc. apply incl_refl.
  - rewrite Hg. destruct Hip as (_ & _ & _ & _ & Hh).
    rewrite Hg in Hh. simpl in Hh.
    destruct (board s0); [reflexivity | discriminate].
  - rewrite Hg. intros g [].
  - split; [exact Hb |]. split; [now rewrite Hb, length_map |].
    split; [| exact Hgs].
    intros bd Hbd. rewrite Hb in Hbd. apply in_map_iff in Hbd.
    destruct Hbd as (g & <- & _).
    unfold evaluate, marks. now rewrite length_map, length_seq.
Qed.

Lemma play_histories_agree_witness :
  exists b s',
    play (fun i => i + 1) fight = Ok b s' /\
    played s' = true /\
    board s' = map (evaluate (answer fight)) (guesses s') /\
    length (board s') = length (guesses s') /\
    (forall bd, In bd (board s') -> length bd = length (answer fight)) /\
    (forall g, In g (guesses s') -> In g (keys (lexicon fight))).
Proof.
  apply (play_histories_agree (fun i => i + 1) fight).
  - apply well_formedb_sound. reflexivity.
  - right. repeat split.
Defined.

(** ** The edge cases on concrete sessions *)

Lemma print_state_cases_witness :
  print_state fight = Ok tt fight /\
  print_state fight_tight = Raise IndexError fight_tight.
Proof.
  split.
  - apply (proj1 (print_state_cases fight)). simpl. lia.
  - apply (proj2 (print_state_cases fight_tight)). simpl. lia.
Defined.

(** * The session properties, for any lexicon *)

(** ** What a game that returns has done *)

Lemma check_word_eq guess s :
  check_word guess s =
  if solved s then Ok tt s
  else match foldM (check_letter guess) (seq 0 (length (answer s))) [] s with
       | Ok bd s1 => Ok tt (set_board (board s1 ++ [bd]) s1)
       | Raise e s1 => Raise e s1
       end.
Proof. unfold check_word, bind, get. destruct (solved s); reflexivity. Qed.

Lemma check_word_returns guess s s' :
  solved s = false ->
  check_word guess s = Ok tt s' ->
  length (board s') = S (length (board s)).
Proof.
  intros Hs H. rewrite check_word_eq, Hs in H.
  pose proof (check_loop_board guess (seq 0 (length (answer s))) [] s) as Hb.
  destruct (foldM _ _ _ s) as [bd s1 | e s1]; [| discriminate].
  cbn [final] in Hb. injection H as <-. cbn [board set_board].
  rewrite Hb, length_app. simpl. lia.
Qed.

Lemma play_rounds_returns rs n : forall i s s',
  solved s = false ->
  play_rounds rs i n s = Ok tt s' ->
  answer s' = answer s /\
  exists gs,
    guesses s' = guesses s ++ gs /\
    length (board s') = length (board s) + length gs /\
    ((solved s' = true /\
      exists gs0, gs = gs0 ++ [answer s] /\ ~ In (answer s) gs0 /\
                  length gs <= n) \/
     (solved s' = false /\ ~ In (answer s) gs /\ length gs = n)).
Proof.
  induction n as [| n IH]; intros i s s' Hs H.
  - simpl in H. unfold ret in H. injection H as <-.
    split; [reflexivity |]. exists []. rewrite app_nil_r.
    split; [reflexivity |]. split; [simpl; lia |].
    right. split; [exact Hs |]. split; [intros [] | reflexivity].
  - cbn [play_rounds] in H. unfold bind at 1 in H.
    destruct (make_guess (rs i) s) as [g s1 | e s1] eqn:Eg; [| discriminate].
    destruct (make_guess_inv _ _ _ _ Eg) as (-> & _).
    set (sa := set_guesses (guesses s ++ [g]) s) in *.
    assert (Hsa : solved sa = false) by exact Hs.
    unfold bind at 1 in H.
    pose proof (check_word_untouched g sa) as Hu.
    destruct (check_word g sa) as [[] s2 | e s2] eqn:Ec; [| discriminate].
    pose proof (check_word_returns g sa s2 Hsa Ec) as Hb2.
    cbn [final] in Hu. destruct Hu as (Ua & _ & _ & _ & _ & Uso & Ug).
    unfold bind at 1 in H.
    pose proof (filter_possible_narrows s2) as Hn.
    destruct (filter_possible s2) as [[] s3 | e s3]; [| discriminate].
    cbn [final] in Hn.
    destruct Hn as ((Na & _) & _ & Nso & _ & _ & _ & Ng & Nb & _).
    assert (A3 : answer s3 = answer s) by (rewrite Na, Ua; reflexivity).
    assert (G3 : guesses s3 = guesses s ++ [g])
      by (rewrite Ng, Ug; reflexivity).
    assert (B3 : length (board s3) = S (length (board s)))
      by (rewrite Nb, Hb2; reflexivity).
    assert (S3 : solved s3 = false) by (rewrite Nso, Uso; exact Hs).
    unfold bind at 1 in H.
    change (is_solved g s3) with (Ok (eqb_word g (answer s3)) s3) in H.
    cbv beta iota in H. rewrite A3 in H.
    destruct (eqb_word g (answer s)) eqn:Eb.
    + apply eqb_word_eq in Eb. subst g.
      unfold modify in H. injection H as <-.
      cbn [answer guesses board solved set_solved].
      split; [exact A3 |]. exists [answer s].
      split; [exact G3 |]. split; [rewrite B3; simpl; lia |].
      left. split; [reflexivity |]. exists [].
      split; [reflexivity |]. split; [intros [] | simpl; lia].
    + assert (Hne : g <> answer s).
      { intros ->. now rewrite eqb_word_refl in Eb. }
      destruct (IH (S i) s3 s' S3 H) as (A & gs & G & B & Hcase).
      rewrite A3 in *.
      split; [exact A |]. exists (g :: gs).
      split; [rewrite G, G3, <- app_assoc; reflexivity |].
      split; [rewrite B, B3; simpl; lia |].
      destruct Hcase as [(Hs' & gs0 & -> & Hn0 & Hl) | (Hs' & Hn' & Hl)].
      * left. split; [exact Hs' |]. exists (g :: gs0).
        split; [reflexivity |]. split.
        -- intros [E | E]; [now apply Hne | now apply Hn0].
        -- simpl in *. lia.
      * right. split; [exact Hs' |]. split.
        -- intros [E | E]; [now apply Hne | now apply Hn'].
        -- simpl. lia.
Qed.

Lemma play_fresh_returns rs s b s' :
  solved s = false -> guesses s = [] -> board s = [] ->
  play_fresh rs s = Ok b s' ->
  b = solved s' /\ answer s' = answer s /\ played s' = true /\
  length (board s') = length (guesses s') /\
  ((solved s' = true /\
    exists gs0, guesses s' = gs0 ++ [answer s] /\ ~ In (answer s) gs0 /\
                length (guesses s') <= 6) \/
   (solved s' = false /\ ~ In (answer s) (guesses s') /\
    length (guesses s') = 6)).
Proof.
  intros Hs Hg Hb H. unfold play_fresh, bind at 1 in H.
  destruct (play_rounds rs 0 6 s) as [[] s1 | e s1] eqn:E; [| discriminate].
  destruct (play_rounds_returns rs 6 0 s s1 Hs E) as (A & gs & G & B & Hcase).
  rewrite Hg in G. rewrite Hb in B. simpl in G, B.
  unfold bind at 1 in H.
  pose proof (print_state_same s1) as Hp.
  destruct (print_state s1) as [[] s2 | e s2]; [| discriminate].
  cbn [final] in Hp. unfold same in Hp. subst s2.
  unfold bind, modify, get, ret in H. injection H as <- <-.
  cbn [solved answer played board guesses set_played].
  split; [reflexivity |]. split; [exact A |]. split; [reflexivity |].
  rewrite G. split; [exact B | exact Hcase].
Qed.

Lemma play_returns rs s b s' :
  ready s ->
  play rs s = Ok b s' ->
  b = solved s' /\ answer s' = answer s /\ played s' = true /\
  length (board s') = length (guesses s') /\
  ((solved s' = true /\
    exists gs0, guesses s' = gs0 ++ [answer s] /\ ~ In (answer s) gs0 /\
                length (guesses s') <= 6) \/
   (solved s' = false /\ ~ In (answer s) (guesses s') /\
    length (guesses s') = 6)).
Proof.
  intros Hr H. destruct (played s) eqn:Hp.
  - rewrite (play_played rs s Hp) in H.
    apply (play_fresh_returns rs (final (reset_game s)) b s'); trivial.
  - destruct Hr as [Hr | Hr]; [congruence |].
    rewrite (play_unplayed rs s Hp) in H.
    destruct Hr as (_ & Hs & _ & _ & _ & _ & Hg & Hb).
    now apply (play_fresh_returns rs s b s').
Qed.




(** C7, as the code has it.  Take a session that is fresh or has a
    finished game behind it.  Whenever [play] returns, it returns
    [self.solved], which is true exactly when the last guess made is the
    answer.  When it returns false, all six guesses were used without the
    answer among them and [return_total_moves] answers 7, the value its
    docstring announces for a failed game; when it returns true,
    [return_total_moves] answers a number between 1 and 6. *)
Theorem play_result_and_moves (rs : nat -> nat) (s : Wordle) (b : bool)
    (s' : Wordle) :
  ready s ->
  play rs s = Ok b s' ->
  b = solved s' /\
  (b = true <-> exists gs0, guesses s' = gs0 ++ [answer s]) /\
  (b = false ->
     length (guesses s') = 6 /\ ~ In (answer s) (guesses s') /\
     return_total_moves s' = Ok 7 s') /\
  (b = true ->
     exists m, return_total_moves s' = Ok m s' /\ 1 <= m <= 6).
Proof.
  intros Hr H.
  destruct (play_returns rs s b s' Hr H) as (-> & _ & _ & _ & Hcase).
  split; [reflexivity |].
  destruct Hcase as [(Hs & gs0 & Hg & Hn & Hl) | (Hs & Hn & Hl)].
  - rewrite Hs. split; [split; [intros _; now exists gs0 | reflexivity] |].
    split; [discriminate |].
    intros _. exists (length (guesses s')).
    split; [now apply return_total_moves_solved |].
    rewrite Hg, length_app in *. simpl in *. lia.
  - rewrite Hs. split; [split; [discriminate |] |].
    + intros (gs0 & Hg). exfalso. apply Hn. rewrite Hg.
      apply in_or_app. right. now left.
    + split; [| discriminate].
      intros _. split; [exact Hl |]. split; [exact Hn |].
      now apply return_total_moves_failed.
Qed.

Lemma play_result_and_moves_witness :
  let s' := final (play (fun i => i) fight) in
  play (fun i => i) fight = Ok true s' /\
  true = solved s' /\
  (true = true <-> exists gs0, guesses s' = gs0 ++ [answer fight]) /\
  (true = false ->
     length (guesses s') = 6 /\ ~ In (answer fight) (guesses s') /\
     return_total_moves s' = Ok 7 s') /\
  (true = true ->
     exists m, return_total_moves s' = Ok m s' /\ 1 <= m <= 6).
Proof.
  intro s'.
  assert (E : play (fun i => i) fight = Ok true s')
    by (vm_compute; reflexivity).
  split; [exact E |].
  apply (play_result_and_moves (fun i => i) fight true s');
    [right; repeat split | exact E].
Defined.

(** ** The target and the candidates, round after round *)

Lemma shrinks_refl s : shrinks s s.
Proof. split; [apply incl_refl | lia]. Qed.

Lemma shrinks_trans s1 s2 s3 : shrinks s1 s2 -> shrinks s2 s3 -> shrinks s1 s3.
Proof.
  intros [I1 L1] [I2 L2]. split; [exact (incl_tran I2 I1) | lia].
Qed.

Lemma shrinks_same s s' :
  store s' = store s -> filtered s' = filtered s -> shrinks s s'.
Proof.
  intros Hst Hf. unfold shrinks, candidates. rewrite Hst, Hf.
  split; [apply incl_refl | lia].
Qed.

Lemma make_guess_shrinks r : frame shrinks (make_guess r).
Proof.
  unfold make_guess. frame_walk shrinks_refl shrinks_trans.
  apply shrinks_same; reflexivity.
Qed.

Lemma check_word_shrinks guess : frame shrinks (check_word guess).
Proof.
  intro s. destruct (check_word_untouched guess s) as (_ & Hst & _ & Hf & _).
  now apply shrinks_same.
Qed.

Lemma filter_possible_shrinks : frame shrinks filter_possible.
Proof.
  intro s.
  destruct (filter_possible_narrows s)
    as (_ & _ & _ & _ & _ & _ & _ & _ & Hi & Hl).
  now split.
Qed.

Lemma round_shrinks r : frame shrinks (round r).
Proof.
  unfold round. frame_walk shrinks_refl shrinks_trans.
  - apply make_guess_shrinks.
  - apply check_word_shrinks.
  - apply filter_possible_shrinks.
Qed.

Lemma round_sound r : frame keeps_sound (round r).
Proof.
  unfold round. frame_walk keeps_sound_refl keeps_sound_trans.
  - apply make_guess_sound.
  - apply check_word_sound.
  - apply filter_possible_sound.
Qed.

Lemma evaluate_then_filter_shrinks guess :
  frame shrinks (check_word guess ;; filter_possible).
Proof.
  frame_walk shrinks_refl shrinks_trans.
  - apply check_word_shrinks.
  - apply filter_possible_shrinks.
Qed.

Lemma evaluate_then_filter_sound guess :
  frame keeps_sound (check_word guess ;; filter_possible).
Proof.
  frame_walk keeps_sound_refl keeps_sound_trans.
  - apply check_word_sound.
  - apply filter_possible_sound.
Qed.

(** C2. Take a session built by [__init__], so that its answer is a key
    of the lexicon, whatever the words and scores of that lexicon are, and
    let the loop of [play] run for any number of turns with any draws,
    to its end or to an exception.  In the state [s1] so reached the
    answer is a key of the candidate dictionary and every candidate is an
    entry of the lexicon.  After a further round, and after
    [check_word] followed by [filter_possible] for any guess at all, the
    answer is still a key of the candidate dictionary, and every entry of
    that dictionary, word and score, was an entry before the round, so
    that it has no more entries.  Finally, when every word of the lexicon
    has the answer's length and a positive score, none of this ends on an
    exception: the turns return, and so does a further round while the
    game is unsolved. *)
Theorem target_stays_candidate (version : string) (ans : word) (d : dict)
    (s0 : Wordle) (rs : nat -> nat) (i n r : nat) :
  init version ans d = Val s0 ->
  let s1 := final (play_rounds rs i n s0) in
  let s2 := final (round r s1) in
  In ans (keys (candidates s1)) /\
  incl (candidates s1) d /\
  In ans (keys (candidates s2)) /\
  incl (candidates s2) (candidates s1) /\
  incl (keys (candidates s2)) (keys (candidates s1)) /\
  length (candidates s2) <= length (candidates s1) /\
  (forall guess,
     let s3 := final ((check_word guess ;; filter_possible) s1) in
     In ans (keys (candidates s3)) /\
     incl (candidates s3) (candidates s1) /\
     length (candidates s3) <= length (candidates s1)) /\
  ((forall u v, In (u, v) d -> length u = length ans /\ (0 < v)%Q) ->
   play_rounds rs i n s0 = Ok tt s1 /\
   (solved s1 = false -> exists g, round r s1 = Ok g s2)).
Proof.
  intros Hi s1 s2.
  destruct (init_sound version ans d s0 Hi) as (Hs0 & Ha0 & Hl0).
  destruct (play_rounds_sound rs n i s0) as [G1 K1]. fold s1 in G1, K1.
  specialize (K1 Hs0).
  assert (A1 : answer s1 = ans) by (destruct G1 as (-> & _); exact Ha0).
  assert (L1 : lexicon s1 = d)
    by (rewrite (grows_lexicon _ _ G1); [exact Hl0 | apply Hs0]).
  destruct (round_sound r s1) as [(A2 & _) K2]. fold s2 in A2, K2.
  specialize (K2 K1). rewrite A1 in A2.
  destruct (round_shrinks r s1) as [I2 Le2]. fold s2 in I2, Le2.
  pose proof K1 as (_ & In1 & Inc1 & _). destruct K2 as (_ & In2 & _).
  rewrite A1 in In1. rewrite L1 in Inc1. rewrite A2 in In2.
  split; [exact In1 |]. split; [exact Inc1 |]. split; [exact In2 |].
  split; [exact I2 |]. split; [now apply incl_keys |].
  split; [exact Le2 |]. split.
  - intros guess s3.
    destruct (evaluate_then_filter_sound guess s1) as [(A3 & _) K3].
    fold s3 in A3, K3. specialize (K3 K1).
    destruct K3 as (_ & In3 & _).
    destruct (evaluate_then_filter_shrinks guess s1) as [I3 Le3].
    fold s3 in I3, Le3.
    rewrite A3, A1 in In3. now split.
  - intro Hd.
    destruct (init_in_progress version ans d s0 Hi Hd) as (Hip & _).
    destruct (play_rounds_ok rs n i s0 Hip)
      as (s1' & gs & E & _ & _ & _ & _ & _ & _ & _ & Hcase).
    assert (E1 : s1 = s1') by (unfold s1; now rewrite E).
    split; [now rewrite E1 |].
    intro Hs. rewrite E1 in Hs.
    destruct Hcase as [(Hs' & _) | (Hip1 & _)]; [congruence |].
    destruct (round_ok r s1' Hip1) as (g & s2' & E2 & _).
    exists g. unfold s2. rewrite E1, E2. reflexivity.
Qed.

Lemma target_stays_candidate_witness :
  let s1 := final (play_rounds (fun _ => 0) 0 2 fight_unknown) in
  let s2 := final (round 0 s1) in
  In (w "fight") (keys (candidates s1)) /\
  incl (candidates s1) two_known /\
  In (w "fight") (keys (candidates s2)) /\
  incl (candidates s2) (candidates s1) /\
  incl (keys (candidates s2)) (keys (candidates s1)) /\
  length (candidates s2) <= length (candidates s1) /\
  (forall guess,
     let s3 := final ((check_word guess ;; filter_possible) s1) in
     In (w "fight") (keys (candidates s3)) /\
     incl (candidates s3) (candidates s1) /\
     length (candidates s3) <= length (candidates s1)) /\
  ((forall u v, In (u, v) two_known ->
                length u = length (w "fight") /\ (0 < v)%Q) ->
   play_rounds (fun _ => 0) 0 2 fight_unknown = Ok tt s1 /\
   (solved s1 = false -> exists g, round 0 s1 = Ok g s2)).
Proof.
  apply (target_stays_candidate "new" (w "fight") two_known fight_unknown
           (fun _ => 0) 0 2 0).
  reflexivity.
Defined.
